(** * Clause-resolution graph pipeline: a shallow embedding of
    [train_model_GNN.py] and the properties of its literal parser, node
    feature encoder, graph builder, dataset and evaluation loop. *)

From Stdlib Require Import ZArith NArith List Bool Lia QArith.
From stdpp Require Import gmap list sorting strings.

Open Scope Z_scope.

(** ** Python strings

    A Python [str] is a sequence of Unicode code points; a character is
    modelled by its code point and a string by the list of its
    characters.  (The negation sign U+00AC is one character, so [core[1:]]
    removes it whole.) *)

Abbreviation char := N (only parsing).
Abbreviation str := (list N) (only parsing).

Module Py.

Definition lparen : char := 40%N.   (* "(" *)
Definition rparen : char := 41%N.   (* ")" *)
Definition comma  : char := 44%N.   (* "," *)
Definition tilde  : char := 126%N.  (* "~" *)
Definition notsign : char := 172%N. (* U+00AC *)

(** [str.isspace] for one character (CPython's [_PyUnicode_IsWhitespace]);
    it drives both [str.strip()] and the [\s] class of [re]. *)
Definition isspace (c : char) : bool :=
  ((9 <=? c) && (c <=? 13) || (28 <=? c) && (c <=? 32)
   || (c =? 133) || (c =? 160) || (c =? 5760)
   || (8192 <=? c) && (c <=? 8202)
   || (c =? 8232) || (c =? 8233) || (c =? 8239) || (c =? 8287)
   || (c =? 12288))%N.

Fixpoint lstrip (s : str) : str :=
  match s with
  | c :: s' => if isspace c then lstrip s' else s
  | [] => []
  end.

Definition rstrip (s : str) : str := rev (lstrip (rev s)).

(** [s.strip()] *)
Definition strip (s : str) : str := rstrip (lstrip s).

(** [s.startswith(c)] for a one-character prefix [c]. *)
Definition startswith (s : str) (c : char) : bool :=
  match s with
  | c' :: _ => (c' =? c)%N
  | [] => false
  end.

(** [s.endswith(c)] for a one-character suffix [c]. *)
Definition endswith (s : str) (c : char) : bool :=
  match last s with
  | Some c' => (c' =? c)%N
  | None => false
  end.

(** [c in s] for a one-character needle [c]. *)
Definition contains (s : str) (c : char) : bool :=
  existsb (fun c' => (c' =? c)%N) s.

(** [s.split(sep, 1)[0]]: everything before the first [sep], the whole
    string when [sep] does not occur. *)
Fixpoint split1_head (sep : char) (s : str) : str :=
  match s with
  | [] => []
  | c :: s' => if (c =? sep)%N then [] else c :: split1_head sep s'
  end.

(** [s.split(sep)]; the empty string splits into one empty piece. *)
Fixpoint split (sep : char) (s : str) : list str :=
  match s with
  | [] => [[]]
  | c :: s' =>
      if (c =? sep)%N then [] :: split sep s'
      else match split sep s' with
           | p :: ps => (c :: p) :: ps
           | [] => [[c]]
           end
  end.

(** Normalisation of one slice bound against a sequence of length
    [len]: a negative bound counts from the end, and every bound is
    clamped to [0..len]. *)
Definition slice_bound (len : nat) (i : Z) : nat :=
  Z.to_nat (if i <? 0 then Z.max (i + Z.of_nat len) 0
            else Z.min i (Z.of_nat len)).

(** [l[start:stop]] with step 1; [None] is an omitted bound. *)
Definition slice {A} (l : list A) (start stop : option Z) : list A :=
  let lo := from_option (slice_bound (length l)) 0%nat start in
  let hi := from_option (slice_bound (length l)) (length l) stop in
  take (hi - lo) (drop lo l).

End Py.

(** ** 1. Literal helpers *)

(** [parse_literal], lines 16-25. *)
Definition parse_literal (literal : str) : Z * str * list str :=
  let core := Py.strip literal in
  let '(sign, core) :=
    if Py.startswith core Py.notsign || Py.startswith core Py.tilde
    then (-1, Py.strip (Py.slice core (Some 1) None))
    else (1, core) in
  let pred := Py.split1_head Py.lparen core in
  let inside :=
    Py.strip (Py.slice core (Some (Z.of_nat (length pred) + 1)) (Some (-1))) in
  let args :=
    match inside with
    | [] => []
    | _ => map Py.strip (Py.split Py.comma inside)
    end in
  (sign, pred, args).


(** [str.isupper] on a one-character string is a lookup in the Unicode
    character database of the interpreter, which is not part of the
    repository: the table is an interface of the development. *)
Class UnicodeData := { isupper : char -> bool }.

Section Encoder.
Context `{UnicodeData}.

(** The type code of one argument: the body of the loop at lines 37-43. *)
Definition arg_type (arg : str) : Z :=
  if Py.contains arg Py.lparen && Py.endswith arg Py.rparen then 2
  else if match arg with c :: _ => isupper c | [] => false end then 0
  else 1.

(** [embed_literal], lines 28-48.  The features are small integers
    stored as floats; they are kept as integers here. *)
Definition embed_literal
    (literal : str) (predicate_to_idx : gmap (list N) Z) (max_args : Z)
  : list Z :=
  let '(sign, pred, args) := parse_literal literal in
  let feat := [if 0 <? sign then 0 else 1] in
  let feat := feat ++ [default 0 (predicate_to_idx !! pred)] in
  let arg_types := map arg_type (Py.slice args None (Some max_args)) in
  let arg_types :=
    arg_types
      ++ replicate (Z.to_nat (max_args - Z.of_nat (length arg_types))) (-1) in
  feat ++ arg_types.

End Encoder.

(** ** 2. Core graph builder *)

(** A JSON integer field that may be [null]. *)
Abbreviation jint := (option Z) (only parsing).

(** One record of [resolvable_pairs] (or the inline [best_pair]). *)
Record Pair := {
  clauseA_index : jint;
  literalA_index : jint;
  clauseB_index : jint;
  literalB_index : jint
}.

(** One clause record [(clause_id, clause_type, literals)]. *)
Record Clause := {
  clause_id : list N;
  clause_type : list N;
  literals : list (list N)
}.

(** One example.  [best_pair = None] stands for a missing key as well as
    for [null] (line 56 treats them alike), and so does
    [best_pair_index = None] (line 59 reads it with [.get(..., None)]). *)
Record Example := {
  problem_id : option (list N);
  clauses : list Clause;
  resolvable_pairs : list Pair;
  best_pair : option Pair;
  best_pair_index : jint
}.

(** The tensors of a [Data] object (a batch has the same three).
    [edge_index] is the 2 x E tensor given by its two rows. *)
Record Data := {
  x : list (list Z);
  edge_index : list nat * list nat;
  y : list Z
}.

(** What a call does: it raises, or it returns a value. *)
Inductive exn := RuntimeError | IndexError.

Inductive result (A : Type) :=
| Raised (e : exn)
| Returned (a : A).
Arguments Raised {A} e.
Arguments Returned {A} a.

(** Sequencing of calls that may raise. *)
#[global] Instance result_bind : MBind result := fun A B k r =>
  match r with
  | Raised e => Raised e
  | Returned a => k a
  end.

(** [torch.stack(tensors, dim=0)] for one-dimensional tensors: the rows of
    the result; it raises on an empty list and on tensors of different
    sizes. *)
Definition stack (tensors : list (list Z)) : result (list (list Z)) :=
  match tensors with
  | [] => Raised RuntimeError
  | t :: ts =>
      if forallb (fun t' => bool_decide (length t' = length t)) ts
      then Returned tensors
      else Raised RuntimeError
  end.

(** [_extract_best_pair], lines 54-64. *)
Definition _extract_best_pair (example : Example) : option Pair :=
  match best_pair example with
  | Some bp => Some bp
  | None =>
      match best_pair_index example with
      | Some idx =>
          let rp := resolvable_pairs example in
          if (0 <=? idx) && (idx <? Z.of_nat (length rp))
          then rp !! Z.to_nat idx
          else None
      | None => None
      end
  end.

(** [enumerate(l)] *)
Definition enumerate {A} (l : list A) : list (nat * A) :=
  zip (seq 0 (length l)) l.

(** The state of the node loop, lines 74-79. *)
Record node_acc := {
  node_map : gmap (Z * Z) nat;
  node_features : list (list Z);
  g_idx : nat
}.

(** The state of the edge loop, lines 83-108. *)
Record edge_acc := {
  edge_src : list nat;
  edge_dst : list nat;
  labels : list Z
}.

(** [(i, a) in node_map] and [node_map[(i, a)]] for a clause index that
    may be [null]: the keys are pairs of integers, so a [null] clause
    index is never a key. *)
Definition node_lookup (m : gmap (Z * Z) nat) (i : jint) (a : Z) : option nat :=
  match i with
  | Some i' => m !! (i', a)
  | None => None
  end.

(** The conjunction [is_best], lines 99-107. *)
Definition is_best (best : option Pair) (i : jint) (a : Z) (j : jint) (b : Z)
  : bool :=
  match best with
  | None => false
  | Some bp =>
      bool_decide (literalA_index bp <> None)
      && bool_decide (literalB_index bp <> None)
      && bool_decide (i = clauseA_index bp)
      && bool_decide (Some a = literalA_index bp)
      && bool_decide (j = clauseB_index bp)
      && bool_decide (Some b = literalB_index bp)
  end.

(** Lexicographic comparison of two columns of an edge tensor. *)
Definition edge_compare (e1 e2 : nat * nat) : comparison :=
  match Nat.compare (fst e1) (fst e2) with
  | Eq => Nat.compare (snd e1) (snd e2)
  | c => c
  end.

(** Insertion into a strictly increasing list of columns. *)
Fixpoint insert_edge (e : nat * nat) (l : list (nat * nat))
  : list (nat * nat) :=
  match l with
  | [] => [e]
  | e' :: l' =>
      match edge_compare e e' with
      | Lt => e :: l
      | Eq => l
      | Gt => e' :: insert_edge e l'
      end
  end.

(** [torch_geometric.utils.coalesce] without edge attributes: the columns
    sorted by (row, column), duplicates removed. *)
Definition coalesce (cols : list (nat * nat)) : list (nat * nat) :=
  foldr insert_edge [] cols.

(** [torch_geometric.utils.to_undirected(edge_index)], a function of the
    PyTorch Geometric library (imported at line 11): it concatenates the
    tensor with its row-swapped copy and returns the coalesced result. *)
Definition to_undirected (edge_index : list nat * list nat)
  : list nat * list nat :=
  let '(row, col) := edge_index in
  let cols := coalesce (zip (row ++ col) (col ++ row)) in
  (cols.*1, cols.*2).

(** [edge_index.size(1)] *)
Definition size1 (edge_index : list nat * list nat) : nat :=
  length (fst edge_index).

Section Builder.
Context `{UnicodeData}.

(** Lines 77-79: one literal becomes one node. *)
Definition add_literal
    (predicate_to_idx : gmap (list N) Z) (max_args : Z) (ci : nat)
    (acc : node_acc) (li_lit : nat * list N) : node_acc :=
  let '(li, lit) := li_lit in
  {| node_map := <[(Z.of_nat ci, Z.of_nat li) := g_idx acc]> (node_map acc);
     node_features :=
       node_features acc ++ [embed_literal lit predicate_to_idx max_args];
     g_idx := S (g_idx acc) |}.

(** Lines 76-79: the inner loop, over the literals of one clause. *)
Definition add_clause
    (predicate_to_idx : gmap (list N) Z) (max_args : Z)
    (acc : node_acc) (ci_clause : nat * Clause) : node_acc :=
  let '(ci, clause) := ci_clause in
  foldl (add_literal predicate_to_idx max_args ci) acc
    (enumerate (literals clause)).

(** Lines 74-79: the loop over the clauses. *)
Definition build_nodes
    (predicate_to_idx : gmap (list N) Z) (max_args : Z)
    (clauses : list Clause) : node_acc :=
  foldl (add_clause predicate_to_idx max_args)
    {| node_map := ∅; node_features := []; g_idx := 0 |}
    (enumerate clauses).

(** Lines 85-108: the body of the loop over [resolvable_pairs]. *)
Definition add_pair
    (m : gmap (Z * Z) nat) (best : option Pair)
    (acc : edge_acc) (pair : Pair) : edge_acc :=
  let i := clauseA_index pair in
  let j := clauseB_index pair in
  match literalA_index pair, literalB_index pair with
  | Some a, Some b =>
      match node_lookup m i a, node_lookup m j b with
      | Some src, Some dst =>
          {| edge_src := edge_src acc ++ [src];
             edge_dst := edge_dst acc ++ [dst];
             labels :=
               labels acc ++ [if is_best best i a j b then 1 else 0] |}
      | _, _ => acc
      end
  | _, _ => acc
  end.

Definition build_edges
    (m : gmap (Z * Z) nat) (best : option Pair) (pairs : list Pair)
  : edge_acc :=
  foldl (add_pair m best)
    {| edge_src := []; edge_dst := []; labels := [] |} pairs.

(** [build_graph_from_example], lines 67-124. *)
Definition build_graph_from_example
    (example : Example) (predicate_to_idx : gmap (list N) Z) (max_args : Z)
  : result (option Data) :=
  let best := _extract_best_pair example in
  let nodes := build_nodes predicate_to_idx max_args (clauses example) in
  x ← stack (node_features nodes);
  let edges :=
    build_edges (node_map nodes) best (resolvable_pairs example) in
  if bool_decide (length (edge_src edges) = 0%nat)
  then Returned None
  else
    let edge_index := (edge_src edges, edge_dst edges) in
    let num_fwd := size1 edge_index in
    let edge_index := to_undirected edge_index in
    let added := Z.of_nat (size1 edge_index) - Z.of_nat num_fwd in
    let labels :=
      labels edges ++ Py.slice (labels edges) None (Some added) in
    Returned (Some {| x := x; edge_index := edge_index; y := labels |}).

End Builder.

(** The labelled edges of a graph: column [k] of [edge_index] carries
    label [y[k]]. *)
Definition labeled_edges (g : Data) : list (nat * nat * Z) :=
  zip (zip (fst (edge_index g)) (snd (edge_index g))) (y g).

(** ** 3. Dataset *)

(** [l[i]] for a Python list: a negative index counts from the end, an
    index out of range raises [IndexError]. *)
Definition getitem {A} (l : list A) (i : Z) : result A :=
  let k := if i <? 0 then i + Z.of_nat (length l) else i in
  if 0 <=? k then
    match l !! Z.to_nat k with
    | Some a => Returned a
    | None => Raised IndexError
    end
  else Raised IndexError.

(** The character class [[A-Za-z0-9_]]. *)
Definition is_ident_char (c : char) : bool :=
  ((65 <=? c) && (c <=? 90) || (97 <=? c) && (c <=? 122)
   || (48 <=? c) && (c <=? 57) || (c =? 95))%N.

Fixpoint span_ident (s : str) : str * str :=
  match s with
  | c :: s' =>
      if is_ident_char c
      then let '(name, rest) := span_ident s' in (c :: name, rest)
      else ([], s)
  | [] => ([], [])
  end.

(** [re.match(r'\s*[~¬]?\s*([A-Za-z0-9_]+)\(', lit)], line 187, returning
    group 1.  White space, the two negation signs, identifier characters
    and the parenthesis are pairwise disjoint classes, so the greedy
    choice of every quantifier is the only one that can succeed and the
    match is a left-to-right scan. *)
Definition match_predicate (lit : str) : option str :=
  let s1 := Py.lstrip lit in
  let s2 :=
    if Py.startswith s1 Py.tilde || Py.startswith s1 Py.notsign
    then Py.slice s1 (Some 1) None else s1 in
  let s3 := Py.lstrip s2 in
  match span_ident s3 with
  | (c :: name, c' :: _) =>
      if (c' =? Py.lparen)%N then Some (c :: name) else None
  | _ => None
  end.

(** Comparison of two strings as Python compares them: lexicographic on
    the code points. *)
Fixpoint str_leb (s1 s2 : str) : bool :=
  match s1, s2 with
  | [], _ => true
  | _ :: _, [] => false
  | c1 :: s1', c2 :: s2' =>
      if (c1 <? c2)%N then true
      else if (c1 =? c2)%N then str_leb s1' s2'
      else false
  end.

Definition str_le (s1 s2 : list N) : Prop := str_leb s1 s2 = true.

#[global] Instance str_le_dec : RelDecision str_le.
Proof. intros s1 s2. unfold str_le. apply _. Defined.

(** [sorted(seen)] for a set of strings. *)
Definition sorted (seen : gset (list N)) : list (list N) :=
  merge_sort str_le (elements seen).

(** Lines 183-189: the predicate names seen in all the examples. *)
Definition collect_predicates (examples : list Example) : gset (list N) :=
  foldl
    (fun seen ex =>
       foldl
         (fun seen clause =>
            foldl
              (fun seen lit =>
                 match match_predicate lit with
                 | Some name => {[ name ]} ∪ seen
                 | None => seen
                 end)
              seen (literals clause))
         seen (clauses ex))
    ∅ examples.

(** Line 191: [{p: i + 1 for i, p in enumerate(pred_list)}]. *)
Definition make_vocabulary (pred_list : list (list N)) : gmap (list N) Z :=
  foldl (fun m ip => <[ snd ip := Z.of_nat (fst ip) + 1 ]> m) ∅
    (enumerate pred_list).

(** The attributes of a [ClauseResolutionDataset]. *)
Record ClauseResolutionDataset := {
  max_args : Z;
  _cache_enabled : bool;
  _cache : gmap Z (option Data);
  examples : list Example;
  predicate_to_idx : gmap (list N) Z
}.

Definition set_examples (self : ClauseResolutionDataset) (v : list Example) :=
  {| max_args := max_args self; _cache_enabled := _cache_enabled self;
     _cache := _cache self; examples := v;
     predicate_to_idx := predicate_to_idx self |}.

Definition set_predicate_to_idx
    (self : ClauseResolutionDataset) (v : gmap (list N) Z) :=
  {| max_args := max_args self; _cache_enabled := _cache_enabled self;
     _cache := _cache self; examples := examples self;
     predicate_to_idx := v |}.

Definition set_cache
    (self : ClauseResolutionDataset) (v : gmap Z (option Data)) :=
  {| max_args := max_args self; _cache_enabled := _cache_enabled self;
     _cache := v; examples := examples self;
     predicate_to_idx := predicate_to_idx self |}.

(** Lines 168-174: the examples whose best pair resolves. *)
Definition filtered_examples (examples : list Example) : list Example :=
  List.filter (fun ex => bool_decide (_extract_best_pair ex <> None)) examples.

(** [ClauseResolutionDataset.__init__], lines 146-193, from the examples
    read at lines 160-166 ([loaded]); the statements that assign an
    attribute are kept in their order. *)
Definition init
    (loaded : list Example) (predicate_list : option (list (list N)))
    (max_args : Z) (use_cache : bool) : ClauseResolutionDataset :=
  let self :=
    {| max_args := max_args; _cache_enabled := use_cache; _cache := ∅;
       examples := []; predicate_to_idx := ∅ |} in
  let examples := loaded in
  let filtered := filtered_examples examples in
  let self := set_examples self filtered in                     (* line 176 *)
  let pred_list :=
    match predicate_list with
    | Some (p :: l) => p :: l
    | _ => sorted (collect_predicates examples)
    end in
  let self := set_predicate_to_idx self (make_vocabulary pred_list) in
  let self := set_examples self examples in                     (* line 193 *)
  self.

Section DatasetAccess.
Context `{UnicodeData}.

(** The call of the graph builder made by [get], lines 201-205 and
    209-213. *)
Definition build (self : ClauseResolutionDataset) (idx : Z)
  : result (option Data) :=
  ex ← getitem (examples self) idx;
  build_graph_from_example ex (predicate_to_idx self) (max_args self).

(** [ClauseResolutionDataset.get], lines 198-213: the result and the
    dataset after the call. *)
Definition get (self : ClauseResolutionDataset) (idx : Z)
  : result (option Data) * ClauseResolutionDataset :=
  if _cache_enabled self then
    match _cache self !! idx with
    | Some g => (Returned g, self)
    | None =>
        match build self idx with
        | Raised e => (Raised e, self)
        | Returned g =>
            (Returned g, set_cache self (<[idx := g]> (_cache self)))
        end
    end
  else (build self idx, self).

End DatasetAccess.

(** ** 5. Training helpers *)

(** [(pred == batch.y).sum().item()] for two one-dimensional tensors:
    equal sizes compare position by position, a tensor of size 1 is
    broadcast against the other, any other pair of sizes raises. *)
Definition count_equal (pred y : list Z) : result nat :=
  let agree p := bool_decide (fst p = snd p) in
  if bool_decide (length pred = length y)
  then Returned (length (List.filter agree (zip pred y)))
  else match pred, y with
       | [p], _ =>
           Returned (length (List.filter (fun l => bool_decide (p = l)) y))
       | _, [l] =>
           Returned (length (List.filter (fun p => bool_decide (p = l)) pred))
       | _, _ => Raised RuntimeError
       end.

(** The counters of [evaluate]. *)
Record counters := { correct : nat; total : nat }.

Section Evaluate.
(** [model(batch.x, batch.edge_index).argmax(dim=1)]: the predicted
    class of every row of the logits. *)
Variable predict : list (list Z) -> list nat * list nat -> list Z.

(** Lines 324-329: the body of the loop over the batches. *)
Definition evaluate_step (acc : counters) (batch : Data) : result counters :=
  if bool_decide (length (y batch) = 0%nat) then Returned acc
  else
    let pred := predict (x batch) (edge_index batch) in
    c ← count_equal pred (y batch);
    Returned {| correct := correct acc + c;
                total := total acc + length (y batch) |}.

Fixpoint evaluate_loop (acc : counters) (loader : list Data)
  : result counters :=
  match loader with
  | [] => Returned acc
  | batch :: loader' =>
      acc' ← evaluate_step acc batch;
      evaluate_loop acc' loader'
  end.

(** [evaluate], lines 319-330.  The quotient of the two counters is
    kept exact. *)
Definition evaluate (loader : list Data) : result Q :=
  acc ← evaluate_loop {| correct := 0; total := 0 |} loader;
  Returned (if bool_decide (total acc = 0%nat) then 0%Q
            else (Z.of_nat (correct acc) # Pos.of_nat (total acc))%Q).

End Evaluate.

(** [train_one_epoch], lines 303-316.  The weights of the model together
    with the state of the optimizer are a value of type [W], a loss is a
    value of type [F] (a float); the arithmetic on losses and the
    optimisation step on one batch (lines 311-315: the gradients are
    cleared, the loss of the batch is computed and propagated, the
    optimizer steps, the loss is read) are the operations of PyTorch the
    loop is written with. *)
Section Training.
Variables W F : Type.
Variable fzero : F.                  (* [0.0] *)
Variable fadd : F -> F -> F.         (* [total_loss + loss.item()] *)
Variable fdiv : F -> nat -> F.       (* [total_loss / n] *)
Variable step : W -> Data -> result (W * F).

(** Lines 307-315: the loop over the batches, on the weights and the
    running total. *)
Fixpoint train_loop (w : W) (total_loss : F) (loader : list Data)
  : result (W * F) :=
  match loader with
  | [] => Returned (w, total_loss)
  | batch :: loader' =>
      if bool_decide (length (y batch) = 0%nat)
      then train_loop w total_loss loader'
      else
        r ← step w batch;
        train_loop r.1 (fadd total_loss r.2) loader'
  end.

(** The weights after the epoch and the value returned at line 316. *)
Definition train_one_epoch (w : W) (loader : list Data) : result (W * F) :=
  r ← train_loop w fzero loader;
  Returned (r.1, fdiv r.2 (Nat.max 1 (length loader))).

End Training.

(** [split_dataset], lines 293-300, on a dataset of [n] examples: the
    indices of the two subsets.  [shuffle] is the outcome of
    [random.shuffle] and [cut] the integer [int(len(idx) * train_ratio)],
    a product of floats. *)
Definition split_dataset
    (shuffle : list nat -> list nat) (cut : nat -> Z) (n : nat)
  : list nat * list nat :=
  let idx := seq 0 n in
  let idx := shuffle idx in
  let k := cut (length idx) in
  (Py.slice idx None (Some k), Py.slice idx (Some k) None).

(** ** 4. GNN model: the inputs of the layers *)


Definition numeric_dim (max_args : Z) : Z := 1 + max_args.

Definition in_dim (max_args d_pred : Z) : Z := numeric_dim max_args + d_pred.





(** ** Vocabulary of the properties *)

(** The negation test of line 19 on the stripped literal. *)
Definition negated (literal : list N) : bool :=
  Py.startswith (Py.strip literal) Py.notsign
  || Py.startswith (Py.strip literal) Py.tilde.

(** The text left once the surrounding white space and the negation sign
    are removed (lines 18-21). *)
Definition literal_core (literal : list N) : list N :=
  if negated literal
  then Py.strip (Py.slice (Py.strip literal) (Some 1) None)
  else Py.strip literal.

(** Every ordinal in the lookup is below the counter, and no ordinal is
    given to two keys. *)
Definition nodes_ok (acc : node_acc) : Prop :=
  (forall k g, node_map acc !! k = Some g -> (g < g_idx acc)%nat)
  /\ (forall k1 k2 g,
        node_map acc !! k1 = Some g -> node_map acc !! k2 = Some g ->
        k1 = k2).

(** What the body of the edge loop appends for one pair: nothing for a
    malformed pair, else the two nodes and the label. *)
Definition emitted (m : gmap (Z * Z) nat) (best : option Pair) (p : Pair)
  : option (nat * nat * Z) :=
  match literalA_index p, literalB_index p with
  | Some a, Some b =>
      match node_lookup m (clauseA_index p) a,
            node_lookup m (clauseB_index p) b with
      | Some src, Some dst =>
          Some (src, dst,
                if is_best best (clauseA_index p) a (clauseB_index p) b
                then 1 else 0)
      | _, _ => None
      end
  | _, _ => None
  end.

Definition push (acc : edge_acc) (e : nat * nat * Z) : edge_acc :=
  {| edge_src := edge_src acc ++ [e.1.1];
     edge_dst := edge_dst acc ++ [e.1.2];
     labels := labels acc ++ [e.2] |}.

#[global] Instance Pair_eq_dec : EqDecision Pair.
Proof. solve_decision. Defined.

(** A pair is malformed when a literal index is [null] or an endpoint is
    absent from the node lookup. *)
Definition malformed (m : gmap (Z * Z) nat) (p : Pair) : Prop :=
  literalA_index p = None
  \/ literalB_index p = None
  \/ (exists a, literalA_index p = Some a
                /\ node_lookup m (clauseA_index p) a = None)
  \/ (exists b, literalB_index p = Some b
                /\ node_lookup m (clauseB_index p) b = None).

(** A pair references existing nodes: both literal indices are present and
    both endpoints are in the node lookup. *)
Definition references_nodes (m : gmap (Z * Z) nat) (p : Pair) : Prop :=
  exists a b src dst,
    literalA_index p = Some a /\ literalB_index p = Some b
    /\ node_lookup m (clauseA_index p) a = Some src
    /\ node_lookup m (clauseB_index p) b = Some dst.

(** The two coordinates a pair joins. *)
Definition endpoints (p : Pair)
  : (option Z * option Z) * (option Z * option Z) :=
  ((clauseA_index p, literalA_index p), (clauseB_index p, literalB_index p)).

(** The node of a coordinate, 0 when there is none. *)
Definition node_of (m : gmap (Z * Z) nat) (k : option Z * option Z) : nat :=
  default 0%nat (k.2 ≫= node_lookup m k.1).

Definition column_of (m : gmap (Z * Z) nat)
    (e : (option Z * option Z) * (option Z * option Z)) : nat * nat :=
  (node_of m e.1, node_of m e.2).

(** A batch is aligned when it has no label or one prediction per
    label. *)
Definition aligned
    (predict : list (list Z) -> list nat * list nat -> list Z) (batch : Data)
  : Prop :=
  y batch <> [] ->
  length (predict (x batch) (edge_index batch)) = length (y batch).

(** [sep.join(pieces)] *)
Fixpoint join (sep : N) (pieces : list (list N)) : list N :=
  match pieces with
  | [] => []
  | [p] => p
  | p :: ps => p ++ sep :: join sep ps
  end.

(** The text [pred(arg1,...,argk)], after a tilde when negated. *)
Definition literal_text (neg : bool) (pred : list N) (args : list (list N))
  : list N :=
  (if neg then [Py.tilde] else [])
    ++ pred ++ Py.lparen :: join Py.comma args ++ [Py.rparen].

(** The number of resolvable pairs that give an edge. *)
Definition valid_pair_count (m : gmap (Z * Z) nat) (pairs : list Pair) : nat :=
  length (omap (emitted m None) pairs).

(** The order of the edge columns: by source, then by destination. *)
Definition edge_lt (e1 e2 : nat * nat) : Prop := edge_compare e1 e2 = Lt.

Section CacheVocabulary.
Context `{UnicodeData}.

(** Every cached entry is what the builder returns for its index. *)
Definition cache_ok (self : ClauseResolutionDataset) : Prop :=
  forall idx g, _cache self !! idx = Some g -> build self idx = Returned g.

(** The dataset after a sequence of calls of [get]. *)
Definition after_gets (self : ClauseResolutionDataset) (idxs : list Z)
  : ClauseResolutionDataset :=
  foldl (fun self idx => (get self idx).2) self idxs.

End CacheVocabulary.

(** The positions at which prediction and label agree, in one batch. *)
Definition agreements
    (predict : list (list Z) -> list nat * list nat -> list Z) (batch : Data)
  : nat :=
  length (List.filter (fun p => bool_decide (p.1 = p.2))
            (zip (predict (x batch) (edge_index batch)) (y batch))).

Definition sum_over {A} (f : A -> nat) (l : list A) : nat :=
  foldr (fun a n => (f a + n)%nat) 0%nat l.

(** ** Concrete inputs *)

(** The upper-case letters of the first 256 code points (A-Z and the
    Latin-1 capitals); the concrete inputs below stay in that range. *)
Definition latin1 : UnicodeData :=
  {| isupper c :=
       ((65 <=? c) && (c <=? 90) || (192 <=? c) && (c <=? 214)
        || (216 <=? c) && (c <=? 222))%N |}.

(** Decoding of the one- and two-byte UTF-8 sequences of a string literal
    into code points. *)
Fixpoint utf8 (bs : list N) : list N :=
  match bs with
  | [] => []
  | b :: bs' =>
      if (b <? 128)%N then b :: utf8 bs'
      else match bs' with
           | b2 :: bs'' => ((b - 192) * 64 + (b2 - 128))%N :: utf8 bs''
           | [] => []
           end
  end.

Definition py (s : string) : list N :=
  utf8 (map Ascii.N_of_ascii (String.list_ascii_of_string s)).

Definition clause_of (id : string) (lits : list string) : Clause :=
  {| clause_id := py id; clause_type := py "axiom"; literals := map py lits |}.

Definition pair (i a j b : Z) : Pair :=
  {| clauseA_index := Some i; literalA_index := Some a;
     clauseB_index := Some j; literalB_index := Some b |}.

Definition two_clauses : list Clause :=
  [clause_of "c0" ["P(x)"]; clause_of "c1" ["¬P(a)"]].

(** Two clauses, one resolvable pair, given inline as the best pair. *)
Definition example_inline : Example :=
  {| problem_id := Some (py "inline"); clauses := two_clauses;
     resolvable_pairs := [pair 0 0 1 0];
     best_pair := Some (pair 0 0 1 0); best_pair_index := None |}.

(** The same pair designated by its index. *)
Definition example_indexed : Example :=
  {| problem_id := Some (py "indexed"); clauses := two_clauses;
     resolvable_pairs := [pair 0 0 1 0];
     best_pair := None; best_pair_index := Some 0 |}.

(** No inline best pair and a [null] index. *)
Definition example_unresolved : Example :=
  {| problem_id := Some (py "unresolved"); clauses := two_clauses;
     resolvable_pairs := [pair 0 0 1 0];
     best_pair := None; best_pair_index := None |}.

(** No inline best pair and the index -1. *)
Definition example_negative : Example :=
  {| problem_id := Some (py "negative"); clauses := two_clauses;
     resolvable_pairs := [pair 0 0 1 0];
     best_pair := None; best_pair_index := Some (-1) |}.

(** Three clauses and two resolvable pairs, the first one the best. *)
Definition example_chain : Example :=
  {| problem_id := Some (py "chain");
     clauses := [clause_of "c0" ["P(x)"]; clause_of "c1" ["¬P(a)"; "Q(a)"];
                 clause_of "c2" ["~Q(y)"]];
     resolvable_pairs := [pair 0 0 1 0; pair 1 1 2 0];
     best_pair := None; best_pair_index := Some 0 |}.

(** One pair of literals listed in both orientations. *)
Definition example_mutual : Example :=
  {| problem_id := Some (py "mutual"); clauses := two_clauses;
     resolvable_pairs := [pair 0 0 1 0; pair 1 0 0 0];
     best_pair := None; best_pair_index := Some 0 |}.

(** One pair listed three times. *)
Definition example_tripled : Example :=
  {| problem_id := Some (py "tripled"); clauses := two_clauses;
     resolvable_pairs := [pair 0 0 1 0; pair 0 0 1 0; pair 0 0 1 0];
     best_pair := None; best_pair_index := Some 0 |}.

(** No literal at all, and a pair that therefore dangles. *)
Definition example_no_literal : Example :=
  {| problem_id := Some (py "no_literal"); clauses := [clause_of "c0" []];
     resolvable_pairs := [pair 0 0 0 0];
     best_pair := None; best_pair_index := Some 0 |}.

(** A dangling pair and a pair with a [null] literal index. *)
Definition example_dangling : Example :=
  {| problem_id := Some (py "dangling"); clauses := two_clauses;
     resolvable_pairs :=
       [pair 0 5 1 0;
        {| clauseA_index := Some 0; literalA_index := None;
           clauseB_index := Some 1; literalB_index := Some 0 |}];
     best_pair := None; best_pair_index := Some 0 |}.

(** A model that predicts class 0 for every edge column. *)
Definition predict_zero (x : list (list Z)) (edge_index : list nat * list nat)
  : list Z :=
  replicate (size1 edge_index) 0.

(** The batch that holds one graph. *)
Definition batch_of (g : Data) : Data := g.

(** A batch of two edges with the labels 0 and 0. *)
Definition batch_zeros : Data :=
  {| x := []; edge_index := ([0; 1]%nat, [1; 0]%nat); y := [0; 0] |}.

(** A batch of two edges with the labels 1 and 0. *)
Definition batch_mixed : Data :=
  {| x := []; edge_index := ([0; 1]%nat, [1; 0]%nat); y := [1; 0] |}.

(** A batch without any label. *)
Definition batch_unlabelled : Data :=
  {| x := []; edge_index := ([], []); y := [] |}.

(** An optimisation step that counts the steps made and reports the
    number of labels of the batch as its loss. *)
Definition step_count (w : nat) (batch : Data) : result (nat * Z) :=
  Returned (S w, Z.of_nat (length (y batch))).

(** The cut at four fifths, as [int(n * 0.8)] gives it. *)
Definition cut_four_fifths (n : nat) : Z := Z.of_nat n * 4 / 5.
(** The graph built for [example_chain] with an empty vocabulary and
    [max_args = 3]. *)
Definition graph_chain : Data :=
  {| x := [[0; 0; 1; -1; -1]; [1; 0; 1; -1; -1];
           [0; 0; 1; -1; -1]; [1; 0; 1; -1; -1]];
     edge_index := ([0; 1; 2; 3]%nat, [1; 0; 3; 2]%nat);
     y := [1; 0; 1; 0] |}.

(** ** Properties *)

(** *** Strings *)

Lemma contains_false (s : list N) (c : N) :
  Py.contains s c = false <-> c ∉ s.
Proof.
  unfold Py.contains. induction s as [|c' s IH]; simpl.
  - split; [intros _; apply not_elem_of_nil | done].
  - rewrite not_elem_of_cons, orb_false_iff, IH, N.eqb_neq.
    split; intros [? ?]; split; congruence.
Qed.

Lemma lstrip_suffix (s : list N) : Py.lstrip s `suffix_of` s.
Proof.
  induction s as [|c s IH]; simpl; [done|].
  destruct (Py.isspace c); [by apply suffix_cons_r | done].
Qed.

Lemma lstrip_elem (s : list N) (c : N) : c ∈ Py.lstrip s -> c ∈ s.
Proof.
  intros Hin. destruct (lstrip_suffix s) as [k Hk].
  rewrite Hk, elem_of_app. by right.
Qed.

Lemma strip_elem (s : list N) (c : N) : c ∈ Py.strip s -> c ∈ s.
Proof.
  unfold Py.strip, Py.rstrip. intros Hin. apply lstrip_elem.
  apply list_elem_of_In, in_rev, list_elem_of_In, lstrip_elem.
  by apply list_elem_of_In, in_rev, list_elem_of_In.
Qed.

Lemma slice_elem {A} (l : list A) (lo hi : option Z) (a : A) :
  a ∈ Py.slice l lo hi -> a ∈ l.
Proof.
  unfold Py.slice. intros Hin.
  by eapply subseteq_drop, subseteq_take.
Qed.

Lemma split1_head_absent (c : N) (s : list N) :
  c ∉ s -> Py.split1_head c s = s.
Proof.
  induction s as [|c' s IH]; simpl; [done|].
  rewrite not_elem_of_cons. intros [Hne Hnin].
  destruct (N.eqb_spec c' c) as [->|_]; [done|]. by rewrite IH.
Qed.

(** A slice that starts past the end is empty. *)
Lemma slice_past_end {A} (l : list A) (lo : Z) (hi : option Z) :
  Z.of_nat (length l) <= lo -> Py.slice l (Some lo) hi = [].
Proof.
  intros Hlo. unfold Py.slice. simpl.
  rewrite drop_ge; [by rewrite take_nil|].
  unfold Py.slice_bound. destruct (lo <? 0) eqn:E; lia.
Qed.

(** A slice [l[:n]] with [n >= 0] is a prefix. *)
Lemma slice_prefix {A} (l : list A) (n : Z) :
  0 <= n -> Py.slice l None (Some n) = take (Z.to_nat n) l.
Proof.
  intros Hn. unfold Py.slice, Py.slice_bound. simpl.
  destruct (n <? 0) eqn:E; [lia|]. rewrite Nat.sub_0_r, drop_0.
  destruct (Z.le_gt_cases n (Z.of_nat (length l))).
  - by rewrite Z.min_l.
  - rewrite Z.min_r, Nat2Z.id by lia.
    rewrite (take_ge l (length l)) by lia.
    symmetry. apply take_ge. lia.
Qed.

(** *** Literal parser *)

Lemma literal_core_elem (literal : list N) (c : N) :
  c ∈ literal_core literal -> c ∈ literal.
Proof.
  unfold literal_core. destruct (negated literal); intros Hin.
  - by eapply strip_elem, slice_elem, strip_elem.
  - by apply strip_elem.
Qed.

(** C9: a literal without any opening parenthesis is parsed, without an
    error, as a predicate with no argument: the predicate is the whole
    stripped text after the negation sign, the argument list is empty and
    the sign is -1 exactly when the stripped literal starts with a
    negation sign. *)
Theorem parse_literal_without_parenthesis (literal : list N) :
  Py.lparen ∉ literal ->
  parse_literal literal
  = (if negated literal then -1 else 1, literal_core literal, []).
Proof.
  intros Hno.
  assert (Hcore : Py.lparen ∉ literal_core literal)
    by (intros Hin; by apply Hno, literal_core_elem).
  unfold parse_literal, literal_core, negated in *.
  destruct (Py.startswith (Py.strip literal) Py.notsign
            || Py.startswith (Py.strip literal) Py.tilde).
  - rewrite (split1_head_absent _ _ Hcore).
    by rewrite (slice_past_end _ (_ + 1)) by lia.
  - rewrite (split1_head_absent _ _ Hcore).
    by rewrite (slice_past_end _ (_ + 1)) by lia.
Qed.

Lemma parse_literal_without_parenthesis_witness :
  parse_literal (py " ~ p ") = (-1, py "p", [])
  /\ parse_literal (py "q") = (1, py "q", []).
Proof.
  split.
  - apply (parse_literal_without_parenthesis (py " ~ p ")).
    rewrite <- contains_false. reflexivity.
  - apply (parse_literal_without_parenthesis (py "q")).
    rewrite <- contains_false. reflexivity.
Defined.

Lemma parse_literal_sign (literal : list N) :
  (parse_literal literal).1.1 = if negated literal then -1 else 1.
Proof.
  unfold parse_literal, negated.
  by destruct (Py.startswith (Py.strip literal) Py.notsign
               || Py.startswith (Py.strip literal) Py.tilde).
Qed.

(** *** Node feature encoder *)

Section EncoderProperties.
Context `{UnicodeData}.

(** The three cases of lines 38-43. *)
Lemma arg_type_cases (arg : list N) :
  let function_term :=
    Py.contains arg Py.lparen && Py.endswith arg Py.rparen in
  let variable := exists c r, arg = c :: r /\ isupper c = true in
  (function_term = true -> arg_type arg = 2)
  /\ (function_term = false -> variable -> arg_type arg = 0)
  /\ (function_term = false -> ~ variable -> arg_type arg = 1).
Proof.
  unfold arg_type. simpl.
  destruct (Py.contains arg Py.lparen && Py.endswith arg Py.rparen).
  - repeat split; done.
  - repeat split; [done | |].
    + intros _ (c & r & -> & ->). done.
    + intros _ Hvar. destruct arg as [|c r]; [done|].
      destruct (isupper c) eqn:E; [|done].
      destruct Hvar. eauto.
Qed.

(** The feature vector written out, for a non-negative [max_args]. *)
Lemma embed_literal_eq
    (literal : list N) (vocab : gmap (list N) Z) (max_args : Z) :
  0 <= max_args ->
  let '(_, pred, args) := parse_literal literal in
  embed_literal literal vocab max_args
  = [if negated literal then 1 else 0; default 0 (vocab !! pred)]
      ++ map arg_type (take (Z.to_nat max_args) args)
      ++ replicate (Z.to_nat max_args - length args) (-1).
Proof.
  intros Hm. unfold embed_literal.
  pose proof (parse_literal_sign literal) as Hsign.
  destruct (parse_literal literal) as [[sign pred] args]. simpl in Hsign.
  rewrite slice_prefix by done. subst sign.
  assert ((if 0 <? (if negated literal then -1 else 1) then 0 else 1)
          = if negated literal then 1 else 0) as ->
    by (by destruct (negated literal)).
  simpl. do 3 f_equal.
  rewrite length_map, length_take. f_equal. lia.
Qed.

Lemma embed_literal_length
    (literal : list N) (vocab : gmap (list N) Z) (max_args : Z) :
  0 <= max_args ->
  length (embed_literal literal vocab max_args) = Z.to_nat (2 + max_args).
Proof.
  intros Hm. pose proof (embed_literal_eq literal vocab max_args Hm) as Heq.
  destruct (parse_literal literal) as [[sign pred] args]. rewrite Heq.
  simpl. rewrite length_app, length_map, length_take, length_replicate. lia.
Qed.

(** C6: for [max_args >= 0] the feature vector has length
    [2 + max_args]; its first entry is 1 exactly when the stripped
    literal starts with a negation sign and 0 otherwise; the slot of
    every used argument holds 2 for a function term (contains an opening
    parenthesis and ends with a closing one), 0 for any other argument
    that is non-empty and starts with an upper-case character, 1 for the
    rest; and every slot past the arguments holds -1. *)
Theorem embed_literal_shape
    (literal : list N) (vocab : gmap (list N) Z) (max_args : Z) :
  0 <= max_args ->
  let args := (parse_literal literal).2 in
  let feat := embed_literal literal vocab max_args in
  length feat = Z.to_nat (2 + max_args)
  /\ feat !! 0%nat = Some (if negated literal then 1 else 0)
  /\ (forall (k : nat) (arg : list N),
        Z.of_nat k < max_args -> args !! k = Some arg ->
        let function_term :=
          Py.contains arg Py.lparen && Py.endswith arg Py.rparen in
        let variable := exists c r, arg = c :: r /\ isupper c = true in
        exists code,
          feat !! (2 + k)%nat = Some code
          /\ (function_term = true -> code = 2)
          /\ (function_term = false -> variable -> code = 0)
          /\ (function_term = false -> ~ variable -> code = 1))
  /\ (forall k : nat,
        (length args <= k)%nat -> Z.of_nat k < max_args ->
        feat !! (2 + k)%nat = Some (-1)).
Proof.
  intros Hm. pose proof (embed_literal_eq literal vocab max_args Hm) as Heq.
  pose proof (embed_literal_length literal vocab max_args Hm) as Hlen.
  destruct (parse_literal literal) as [[sign pred] args]. simpl.
  split; [exact Hlen|]. clear Hlen.
  rewrite Heq. clear Heq. repeat split.
  - intros k arg Hk Harg. exists (arg_type arg). split.
    + change (2 + k)%nat with (S (S k)). simpl.
      rewrite lookup_app_l
        by (rewrite length_map, length_take;
            apply lookup_lt_Some in Harg; lia).
      rewrite list_lookup_fmap, lookup_take_lt by lia. by rewrite Harg.
    + apply arg_type_cases.
  - intros k Hlen Hk. change (2 + k)%nat with (S (S k)). simpl.
    rewrite lookup_app_r by (rewrite length_map, length_take; lia).
    rewrite length_map, length_take.
    apply lookup_replicate_2. lia.
Qed.

End EncoderProperties.

Lemma embed_literal_shape_witness :
  embed_literal (H := latin1) (py "¬P(X, f(a), b)") ∅ 3 = [1; 0; 0; 2; 1]
  /\ length (embed_literal (H := latin1) (py "P(a)") ∅ 3) = 5%nat
  /\ embed_literal (H := latin1) (py "P(a)") ∅ 3 !! 3%nat = Some (-1).
Proof.
  split; [reflexivity|].
  destruct (embed_literal_shape (H := latin1) (py "P(a)") ∅ 3 ltac:(lia))
    as (Hlen & _ & _ & Hpad).
  split; [exact Hlen|].
  apply (Hpad 1%nat); [vm_compute; lia | lia].
Defined.

(** *** Best-pair resolution *)

(** C4: the inline [best_pair] wins when there is one; otherwise an index
    within bounds selects the entry of [resolvable_pairs] at that index;
    otherwise (no index, or an index out of bounds) the result is
    [None]. *)
Theorem extract_best_pair_cases (example : Example) :
  let rp := resolvable_pairs example in
  (forall bp, best_pair example = Some bp ->
     _extract_best_pair example = Some bp)
  /\ (forall idx,
        best_pair example = None -> best_pair_index example = Some idx ->
        0 <= idx < Z.of_nat (length rp) ->
        exists p, rp !! Z.to_nat idx = Some p
                  /\ _extract_best_pair example = Some p)
  /\ (best_pair example = None ->
      (best_pair_index example = None
       \/ exists idx, best_pair_index example = Some idx
                      /\ ~ (0 <= idx < Z.of_nat (length rp))) ->
      _extract_best_pair example = None).
Proof.
  unfold _extract_best_pair. repeat split.
  - by intros bp ->.
  - intros idx -> -> [Hlo Hhi].
    destruct (lookup_lt_is_Some_2 (resolvable_pairs example) (Z.to_nat idx))
      as [p Hp]; [lia|].
    exists p. split; [done|].
    by rewrite (proj2 (Z.leb_le _ _) Hlo), (proj2 (Z.ltb_lt _ _) Hhi).
  - intros -> [-> | (idx & -> & Hout)]; [done|].
    destruct (Z.leb_spec 0 idx); [|done].
    destruct (Z.ltb_spec idx (Z.of_nat (length (resolvable_pairs example))));
      [lia | done].
Qed.

(** C10: without an inline [best_pair], a negative [best_pair_index]
    resolves to [None]; it never selects an entry counted from the end of
    [resolvable_pairs]. *)
Theorem extract_best_pair_negative_index (example : Example) (idx : Z) :
  best_pair example = None ->
  best_pair_index example = Some idx ->
  idx < 0 ->
  _extract_best_pair example = None.
Proof.
  intros Hbp Hidx Hneg. unfold _extract_best_pair. rewrite Hbp, Hidx.
  by destruct (Z.leb_spec 0 idx); [lia|].
Qed.

(** *** Node enumeration *)

Section NodeProperties.
Context `{UnicodeData}.
Variable vocab : gmap (list N) Z.
Variable max_args : Z.

Lemma add_literal_ok (ci : nat) (acc : node_acc) (li_lit : nat * list N) :
  nodes_ok acc -> nodes_ok (add_literal vocab max_args ci acc li_lit).
Proof.
  intros [Hlt Hinj]. destruct li_lit as [li lit]. split; simpl.
  - intros k g. rewrite lookup_insert. case_decide.
    + intros [= <-]. lia.
    + intros Hk. apply Hlt in Hk. lia.
  - intros k1 k2 g. rewrite !lookup_insert.
    repeat case_decide; try congruence.
    + intros [= <-] Hk. apply Hlt in Hk. lia.
    + intros Hk [= <-]. apply Hlt in Hk. lia.
    + apply Hinj.
Qed.

Lemma add_literals_ok (ci : nat) (lits : list (nat * list N)) (acc : node_acc) :
  nodes_ok acc -> nodes_ok (foldl (add_literal vocab max_args ci) acc lits).
Proof.
  revert acc. induction lits as [|l lits IH]; intros acc Hok; simpl; [done|].
  by apply IH, add_literal_ok.
Qed.

Lemma build_nodes_ok (cls : list Clause) :
  nodes_ok (build_nodes vocab max_args cls).
Proof.
  unfold build_nodes.
  generalize (enumerate cls). intros l.
  set (init_acc := {| node_map := ∅; node_features := []; g_idx := 0 |}).
  assert (Hinit : nodes_ok init_acc).
  { split; simpl; intros *; by rewrite lookup_empty. }
  revert Hinit. generalize init_acc.
  induction l as [|[ci c] l IH]; intros acc Hok; simpl; [done|].
  by apply IH, add_literals_ok.
Qed.

(** Two coordinates with the same node are the same coordinate. *)
Lemma node_lookup_inj (cls : list Clause) (i j : option Z) (a b : Z) (g : nat) :
  let m := node_map (build_nodes vocab max_args cls) in
  node_lookup m i a = Some g -> node_lookup m j b = Some g ->
  i = j /\ a = b.
Proof.
  simpl. destruct (build_nodes_ok cls) as [_ Hinj].
  destruct i as [i|], j as [j|]; simpl; try done.
  intros Hi Hj. by injection (Hinj _ _ _ Hi Hj) as -> ->.
Qed.

(** The features follow the literals, clause after clause. *)
Lemma add_literals_features
    (ci : nat) (lits : list (list N)) (s : nat) (acc : node_acc) :
  node_features
    (foldl (add_literal vocab max_args ci) acc (zip (seq s (length lits)) lits))
  = node_features acc
      ++ map (fun lit => embed_literal lit vocab max_args) lits.
Proof.
  revert s acc. induction lits as [|lit lits IH]; intros s acc; simpl.
  - by rewrite app_nil_r.
  - rewrite IH. simpl. by rewrite <- app_assoc.
Qed.

(** The loop over the clauses from any state and any first index. *)
Lemma add_clauses_features (cls : list Clause) (s : nat) (acc : node_acc) :
  node_features
    (foldl (add_clause vocab max_args) acc (zip (seq s (length cls)) cls))
  = node_features acc
      ++ map (fun lit => embed_literal lit vocab max_args)
           (concat (map literals cls)).
Proof.
  revert s acc. induction cls as [|c cls IH]; intros s acc; simpl.
  - by rewrite app_nil_r.
  - rewrite IH. unfold enumerate.
    rewrite add_literals_features, map_app. by rewrite <- app_assoc.
Qed.

Lemma build_nodes_features (cls : list Clause) :
  node_features (build_nodes vocab max_args cls)
  = map (fun lit => embed_literal lit vocab max_args)
      (concat (map literals cls)).
Proof. apply (add_clauses_features cls 0). Qed.

Lemma add_clauses_no_literal (cls : list Clause) (s : nat) (acc : node_acc) :
  Forall (fun c => literals c = []) cls ->
  foldl (add_clause vocab max_args) acc (zip (seq s (length cls)) cls) = acc.
Proof.
  intros Hall. revert s acc.
  induction Hall as [|c cls Hc Hall IH]; intros s acc; simpl; [done|].
  rewrite Hc. simpl. apply IH.
Qed.

(** Without any feature the lookup is empty. *)
Lemma build_nodes_no_feature (cls : list Clause) :
  node_features (build_nodes vocab max_args cls) = [] ->
  node_map (build_nodes vocab max_args cls) = ∅.
Proof.
  rewrite build_nodes_features. intros Hnil.
  apply map_eq_nil in Hnil.
  assert (Hall : Forall (fun c => literals c = []) cls).
  { induction cls as [|c cls IH]; [done|]. simpl in Hnil.
    apply app_eq_nil in Hnil as [Hc Hnil]. constructor; auto. }
  unfold build_nodes, enumerate. by rewrite add_clauses_no_literal.
Qed.

(** [torch.stack] accepts rows of one length. *)
Lemma stack_uniform (rows : list (list Z)) (n : nat) :
  rows <> [] -> Forall (fun r => length r = n) rows ->
  stack rows = Returned rows.
Proof.
  intros Hne Hall. destruct rows as [|r rows]; [done|]. simpl.
  apply Forall_cons in Hall as [Hr Hall].
  rewrite (proj2 (forallb_forall _ _)); [done|].
  intros r' Hr'. apply bool_decide_eq_true.
  rewrite Forall_forall in Hall. rewrite Hr. apply Hall.
  by apply list_elem_of_In.
Qed.

(** With [max_args >= 0] the features of all the nodes have one length,
    so that stacking them raises only when there is no node. *)
Lemma stack_node_features (cls : list Clause) :
  0 <= max_args ->
  node_features (build_nodes vocab max_args cls) <> [] ->
  stack (node_features (build_nodes vocab max_args cls))
  = Returned (node_features (build_nodes vocab max_args cls)).
Proof.
  intros Hm Hne. apply (stack_uniform _ (Z.to_nat (2 + max_args))); [done|].
  rewrite build_nodes_features. apply Forall_fmap, Forall_forall.
  intros lit _. by apply embed_literal_length.
Qed.

End NodeProperties.

(** *** Edge loop *)

Section EdgeProperties.
Context `{UnicodeData}.

Lemma add_pair_emitted
    (m : gmap (Z * Z) nat) (best : option Pair) (acc : edge_acc) (p : Pair) :
  add_pair m best acc p = from_option (push acc) acc (emitted m best p).
Proof.
  unfold add_pair, emitted.
  destruct (literalA_index p) as [a|], (literalB_index p) as [b|]; try done.
  destruct (node_lookup m (clauseA_index p) a),
           (node_lookup m (clauseB_index p) b); done.
Qed.

Lemma foldl_add_pair
    (m : gmap (Z * Z) nat) (best : option Pair) (ps : list Pair)
    (acc : edge_acc) :
  let es := omap (emitted m best) ps in
  foldl (add_pair m best) acc ps
  = {| edge_src := edge_src acc ++ es.*1.*1;
       edge_dst := edge_dst acc ++ es.*1.*2;
       labels := labels acc ++ es.*2 |}.
Proof.
  revert acc. induction ps as [|p ps IH]; intros acc; simpl.
  - rewrite !app_nil_r. by destruct acc.
  - rewrite IH, add_pair_emitted.
    destruct (emitted m best p) as [[[src dst] l]|]; simpl; [|done].
    by rewrite <- !app_assoc.
Qed.

(** The three lists after the loop, read off the emitted triples. *)
Lemma build_edges_emitted
    (m : gmap (Z * Z) nat) (best : option Pair) (ps : list Pair) :
  let es := omap (emitted m best) ps in
  build_edges m best ps
  = {| edge_src := es.*1.*1; edge_dst := es.*1.*2; labels := es.*2 |}.
Proof. apply (foldl_add_pair m best ps). Qed.

End EdgeProperties.

(** *** Coalescing *)

Lemma edge_compare_eq (e1 e2 : nat * nat) :
  edge_compare e1 e2 = Eq <-> e1 = e2.
Proof.
  destruct e1 as [u1 v1], e2 as [u2 v2]. unfold edge_compare. simpl.
  destruct (Nat.compare_spec u1 u2) as [->|Hlt|Hlt].
  - rewrite Nat.compare_eq_iff. split; [by intros -> | by intros [=]].
  - split; [done | intros [=]; lia].
  - split; [done | intros [=]; lia].
Qed.

Lemma elem_of_insert_edge (e e' : nat * nat) (l : list (nat * nat)) :
  e' ∈ insert_edge e l <-> e' = e \/ e' ∈ l.
Proof.
  induction l as [|e0 l IH]; simpl.
  - rewrite list_elem_of_singleton, elem_of_nil. tauto.
  - destruct (edge_compare e e0) eqn:E.
    + apply edge_compare_eq in E as ->. rewrite elem_of_cons. tauto.
    + apply elem_of_cons.
    + rewrite !elem_of_cons, IH. tauto.
Qed.

Lemma elem_of_coalesce (e : nat * nat) (l : list (nat * nat)) :
  e ∈ coalesce l <-> e ∈ l.
Proof.
  unfold coalesce. induction l as [|e0 l IH]; simpl; [done|].
  rewrite elem_of_insert_edge, elem_of_cons, IH. tauto.
Qed.

Lemma length_insert_edge_fresh (e : nat * nat) (l : list (nat * nat)) :
  e ∉ l -> length (insert_edge e l) = S (length l).
Proof.
  induction l as [|e0 l IH]; simpl; [done|].
  rewrite not_elem_of_cons. intros [Hne Hnin].
  destruct (edge_compare e e0) eqn:E; simpl.
  - by apply edge_compare_eq in E.
  - done.
  - by rewrite IH.
Qed.

(** Coalescing keeps the number of columns when none is repeated. *)
Lemma length_coalesce_NoDup (l : list (nat * nat)) :
  NoDup l -> length (coalesce l) = length l.
Proof.
  unfold coalesce. induction 1 as [|e l Hnin Hnd IH]; simpl; [done|].
  rewrite length_insert_edge_fresh, IH; [done|].
  by rewrite (elem_of_coalesce e l).
Qed.

Lemma zip_fst_snd {A B} (l : list (A * B)) : zip (l.*1) (l.*2) = l.
Proof. induction l as [|[a b] l IH]; simpl; by f_equal. Qed.

(** *** Graph builder *)

Lemma emitted_malformed (m : gmap (Z * Z) nat) (best : option Pair) (p : Pair) :
  malformed m p -> emitted m best p = None.
Proof.
  unfold malformed, emitted.
  intros [-> | [-> | [(a & -> & ->) | (b & -> & ->)]]]; try done.
  - by destruct (literalA_index p).
  - by destruct (literalB_index p).
  - destruct (literalA_index p) as [a|]; [|done].
    by destruct (node_lookup m (clauseA_index p) a).
Qed.

Lemma omap_all_None {A B} (f : A -> option B) (l : list A) :
  (forall a, a ∈ l -> f a = None) -> omap f l = [].
Proof.
  induction l as [|a l IH]; intros Hall; simpl; [done|].
  rewrite (Hall a) by apply list_elem_of_here.
  apply IH. intros a' Ha'. apply Hall. by apply list_elem_of_further.
Qed.

Lemma omap_all_Some {A B} (f : A -> option B) (g : A -> B) (l : list A) :
  (forall a, a ∈ l -> f a = Some (g a)) -> omap f l = map g l.
Proof.
  induction l as [|a l IH]; intros Hall; simpl; [done|].
  rewrite (Hall a) by apply list_elem_of_here. simpl. f_equal.
  apply IH. intros a' Ha'. apply Hall. by apply list_elem_of_further.
Qed.

Lemma zip_snd_fst {A B} (l : list (A * B)) :
  zip (l.*2) (l.*1) = map prod_swap l.
Proof. induction l as [|[a b] l IH]; simpl; by f_equal. Qed.

(** When no column is repeated, reversed or a loop, symmetrising doubles
    the number of columns. *)
Lemma size1_to_undirected_NoDup (cols : list (nat * nat)) :
  NoDup (cols ++ map prod_swap cols) ->
  size1 (to_undirected (cols.*1, cols.*2)) = (2 * length cols)%nat.
Proof.
  intros Hnd. unfold size1, to_undirected. simpl.
  rewrite length_fmap, zip_with_app by (by rewrite !length_fmap).
  fold (zip (cols.*1) (cols.*2)). fold (zip (cols.*2) (cols.*1)).
  rewrite zip_fst_snd, zip_snd_fst, length_coalesce_NoDup by done.
  rewrite length_app, length_map. lia.
Qed.

(** Exactly one entry of a repetition-free list is a given member. *)
Lemma count_occ_member {A} `{EqDecision A} (l : list A) (a : A) :
  NoDup l -> a ∈ l ->
  count_occ Z.eq_dec
    (map (fun a' => if bool_decide (Some a = Some a') then 1 else 0) l) 1
  = 1%nat.
Proof.
  induction 1 as [|a' l Hnin Hnd IH]; intros Hin.
  - by apply elem_of_nil in Hin.
  - simpl. apply elem_of_cons in Hin as [-> | Hin].
    + rewrite bool_decide_eq_true_2 by done.
      destruct (Z.eq_dec 1 1); [|done]. f_equal.
      apply count_occ_not_In. rewrite in_map_iff.
      intros (a'' & Heq & Hin'). apply list_elem_of_In in Hin'.
      case_bool_decide; [|done]. congruence.
    + rewrite bool_decide_eq_false_2 by (intros [= ->]; done).
      destruct (Z.eq_dec 0 1); [done|]. by apply IH.
Qed.

Section BuilderProperties.
Context `{UnicodeData}.

(** C5 (as the code has it): for [max_args >= 0], when the clauses hold
    at least one literal and every resolvable pair is malformed, the
    builder returns [None] and raises nothing. *)
Theorem build_graph_all_malformed
    (example : Example) (vocab : gmap (list N) Z) (max_args : Z) :
  0 <= max_args ->
  (exists c, c ∈ clauses example /\ literals c <> []) ->
  (forall p, p ∈ resolvable_pairs example ->
     malformed (node_map (build_nodes vocab max_args (clauses example))) p) ->
  build_graph_from_example example vocab max_args = Returned None.
Proof.
  intros Hm (c & Hc & Hlits) Hmal. unfold build_graph_from_example.
  rewrite stack_node_features; [|done|].
  - simpl. rewrite build_edges_emitted, omap_all_None; [done|].
    intros p Hp. by apply emitted_malformed, Hmal.
  - rewrite build_nodes_features. intros Hfeat.
    apply map_eq_nil in Hfeat.
    apply list_elem_of_In, in_split in Hc as (l1 & l2 & Hsplit).
    rewrite Hsplit, map_app, concat_app in Hfeat. simpl in Hfeat.
    apply app_eq_nil in Hfeat as [_ Hfeat].
    by apply app_eq_nil in Hfeat as [Hfeat _].
Qed.

Lemma emitted_references_nodes
    (m : gmap (Z * Z) nat) (best : option Pair) (p : Pair) :
  references_nodes m p ->
  exists l, emitted m best p = Some (column_of m (endpoints p), l)
            /\ (l = if bool_decide (best = Some p) then 1 else 0).
Proof.
  intros (a & b & src & dst & Ha & Hb & Hsrc & Hdst).
  unfold emitted, column_of, node_of, endpoints. simpl.
  rewrite Ha, Hb. simpl. rewrite Hsrc, Hdst. simpl.
  eexists. split; [done|].
  assert (Hiff : is_best best (clauseA_index p) a (clauseB_index p) b
                 = bool_decide (best = Some p)); [|by rewrite Hiff].
  destruct best as [bp|]; simpl; [|done].
  apply eq_true_iff_eq. rewrite !andb_true_iff, !bool_decide_eq_true.
  split.
  - intros (((((_ & _) & HcA) & HlA) & HcB) & HlB).
    f_equal. destruct bp, p; simpl in *. congruence.
  - intros [= ->]. rewrite Ha, Hb. done.
Qed.

Lemma column_of_swap (m : gmap (Z * Z) nat)
    (e : (option Z * option Z) * (option Z * option Z)) :
  column_of m (prod_swap e) = prod_swap (column_of m e).
Proof. by destruct e. Qed.

(** The columns of pairs that reference nodes are as distinct as their
    endpoints. *)
Lemma columns_NoDup
    (vocab : gmap (list N) Z) (max_args : Z) (cls : list Clause)
    (rp : list Pair) :
  let m := node_map (build_nodes vocab max_args cls) in
  (forall p, p ∈ rp -> references_nodes m p) ->
  NoDup (map endpoints rp ++ map (prod_swap ∘ endpoints) rp) ->
  let cols := map (column_of m ∘ endpoints) rp in
  NoDup (cols ++ map prod_swap cols).
Proof.
  intros m Href Hnd cols.
  assert (Hcols : cols ++ map prod_swap cols
                  = column_of m <$>
                      (map endpoints rp ++ map (prod_swap ∘ endpoints) rp)).
  { subst cols. rewrite fmap_app. f_equal.
    - by rewrite <- list_fmap_compose.
    - rewrite <- !list_fmap_compose. apply list_fmap_ext.
      intros _ p _. unfold compose. by rewrite column_of_swap. }
  rewrite Hcols. apply NoDup_fmap_2_strong; [|done].
  assert (Hnodes : forall e,
             e ∈ map endpoints rp ++ map (prod_swap ∘ endpoints) rp ->
             exists a b src dst,
               e.1.2 = Some a /\ e.2.2 = Some b
               /\ node_lookup m e.1.1 a = Some src
               /\ node_lookup m e.2.1 b = Some dst).
  { intros e. rewrite elem_of_app.
    intros [Hin | Hin]; apply list_elem_of_fmap in Hin as (p & -> & Hp);
      destruct (Href p Hp) as (a & b & src & dst & Ha & Hb & Hsrc & Hdst);
      simpl.
    - by exists a, b, src, dst.
    - by exists b, a, dst, src. }
  intros e1 e2 He1 He2 Heq.
  destruct (Hnodes e1 He1) as (a1 & b1 & s1 & d1 & Ha1 & Hb1 & Hs1 & Hd1).
  destruct (Hnodes e2 He2) as (a2 & b2 & s2 & d2 & Ha2 & Hb2 & Hs2 & Hd2).
  destruct e1 as [[i1 oa1] [j1 ob1]], e2 as [[i2 oa2] [j2 ob2]].
  simpl in *. subst. unfold column_of, node_of in Heq. simpl in Heq.
  rewrite Hs1, Hs2, Hd1, Hd2 in Heq. simpl in Heq.
  injection Heq as -> ->.
  destruct (node_lookup_inj vocab max_args cls _ _ _ _ _ Hs1 Hs2) as [-> ->].
  destruct (node_lookup_inj vocab max_args cls _ _ _ _ _ Hd1 Hd2) as [-> ->].
  done.
Qed.

(** C3 (as the code has it): for [max_args >= 0], when every resolvable
    pair references existing nodes, the resolved best pair is one of
    them, and no two entries join the same two literals (in either
    orientation) nor does any entry join a literal to itself, the graph
    has twice as many edge columns, and twice as many labels, as there
    are pairs, and exactly two labels are 1. *)
Theorem build_graph_edge_count
    (example : Example) (vocab : gmap (list N) Z) (max_args : Z) :
  let m := node_map (build_nodes vocab max_args (clauses example)) in
  let rp := resolvable_pairs example in
  0 <= max_args ->
  (forall p, p ∈ rp -> references_nodes m p) ->
  (exists bp, _extract_best_pair example = Some bp /\ bp ∈ rp) ->
  NoDup (map endpoints rp ++ map (prod_swap ∘ endpoints) rp) ->
  exists g,
    build_graph_from_example example vocab max_args = Returned (Some g)
    /\ size1 (edge_index g) = (2 * length rp)%nat
    /\ length (y g) = (2 * length rp)%nat
    /\ count_occ Z.eq_dec (y g) 1 = 2%nat.
Proof.
  intros m rp Hm Href (bp & Hbest & Hbp) Hnd.
  set (lab := fun p : Pair => if bool_decide (Some bp = Some p) then 1 else 0).
  assert (Hes : omap (emitted m (Some bp)) rp
                = map (fun p => (column_of m (endpoints p), lab p)) rp).
  { apply omap_all_Some. intros p Hp.
    destruct (emitted_references_nodes m (Some bp) p (Href p Hp))
      as (l & -> & ->). done. }
  pose proof (columns_NoDup vocab max_args (clauses example) rp Href Hnd)
    as Hcols.
  assert (Hrp : NoDup rp).
  { apply NoDup_app in Hnd as (Hnd & _ & _). by apply NoDup_fmap_1 in Hnd. }
  unfold build_graph_from_example. rewrite Hbest.
  rewrite stack_node_features; [|done|]; cycle 1.
  { intros Hfeat. apply build_nodes_no_feature in Hfeat.
    destruct (Href bp Hbp) as (a & b & src & dst & _ & _ & Hsrc & _).
    subst m. rewrite Hfeat in Hsrc.
    destruct (clauseA_index bp); simpl in Hsrc; [|done].
    by rewrite lookup_empty in Hsrc. }
  cbn [mbind result_bind]. fold m rp. rewrite build_edges_emitted.
  cbn [edge_src edge_dst labels].
  rewrite Hes.
  set (cols := map (column_of m ∘ endpoints) rp) in *.
  assert (Hc1 : (map (fun p => (column_of m (endpoints p), lab p)) rp).*1
                = cols) by (by rewrite <- list_fmap_compose).
  assert (Hc2 : (map (fun p => (column_of m (endpoints p), lab p)) rp).*2
                = map lab rp) by (by rewrite <- list_fmap_compose).
  rewrite Hc1, Hc2.
  assert (Hlen : length rp <> 0%nat).
  { destruct rp; [by apply elem_of_nil in Hbp | done]. }
  assert (Hfwd : size1 (cols.*1, cols.*2) = length rp)
    by (unfold size1, cols; cbn [fst]; by rewrite !length_fmap).
  assert (Hsize : size1 (to_undirected (cols.*1, cols.*2))
                  = (2 * length rp)%nat).
  { rewrite (size1_to_undirected_NoDup cols Hcols).
    unfold cols. by rewrite length_fmap. }
  rewrite bool_decide_eq_false_2 by (unfold cols; by rewrite !length_fmap).
  eexists. split; [reflexivity|]. cbn [edge_index y].
  rewrite Hsize, Hfwd.
  split; [done|].
  rewrite slice_prefix by lia.
  rewrite take_ge by (rewrite length_fmap; lia).
  rewrite length_app, count_occ_app, !length_fmap.
  split; [lia|].
  unfold lab. by rewrite (count_occ_member rp bp Hrp Hbp).
Qed.

(** The columns of a returned graph are symmetric as a set: with every
    column (u, v) there is a column (v, u). *)
Lemma build_graph_columns_symmetric
    (example : Example) (vocab : gmap (list N) Z) (max_args : Z) (g : Data)
    (u v : nat) :
  build_graph_from_example example vocab max_args = Returned (Some g) ->
  (u, v) ∈ zip (edge_index g).1 (edge_index g).2 ->
  (v, u) ∈ zip (edge_index g).1 (edge_index g).2.
Proof.
  unfold build_graph_from_example.
  destruct (stack _) as [e|xs]; [done|]. cbn [mbind result_bind].
  rewrite build_edges_emitted. cbn [edge_src edge_dst labels].
  case_bool_decide; [done|]. intros [= <-]. cbn [edge_index].
  set (cols := (omap _ _).*1).
  cbn [fst snd]. rewrite zip_fst_snd.
  rewrite zip_with_app by (by rewrite !length_fmap).
  fold (zip (cols.*1) (cols.*2)). fold (zip (cols.*2) (cols.*1)).
  rewrite zip_fst_snd, zip_snd_fst, !elem_of_coalesce, !elem_of_app.
  rewrite !list_elem_of_fmap.
  intros [Hin | ([u' v'] & [= -> ->] & Hin)].
  - right. by exists (u, v).
  - by left.
Qed.

End BuilderProperties.

(** *** Concrete runs of the builder *)

Lemma extract_best_pair_cases_witness :
  _extract_best_pair example_inline = Some (pair 0 0 1 0)
  /\ (exists p, resolvable_pairs example_indexed !! 0%nat = Some p
                /\ _extract_best_pair example_indexed = Some p)
  /\ _extract_best_pair example_unresolved = None.
Proof.
  destruct (extract_best_pair_cases example_inline) as (Hinline & _ & _).
  destruct (extract_best_pair_cases example_indexed) as (_ & Hindexed & _).
  destruct (extract_best_pair_cases example_unresolved) as (_ & _ & Hnone).
  split; [|split].
  - apply Hinline. reflexivity.
  - apply (Hindexed 0); [reflexivity | reflexivity | simpl; lia].
  - apply Hnone; [reflexivity | left; reflexivity].
Defined.

Lemma extract_best_pair_negative_index_witness :
  _extract_best_pair example_negative = None.
Proof.
  apply (extract_best_pair_negative_index example_negative (-1));
    [reflexivity | reflexivity | lia].
Defined.

(** The scenario of two clauses and one resolvable pair given as the best
    pair: two nodes, two edge columns, both labelled 1. *)
Example build_graph_scenario :
  build_graph_from_example (H := latin1) example_inline ∅ 3
  = Returned
      (Some {| x := [[0; 0; 1; -1; -1]; [1; 0; 1; -1; -1]];
               edge_index := ([0; 1]%nat, [1; 0]%nat);
               y := [1; 1] |}).
Proof. reflexivity. Qed.

(** C2 (the code at a failing input): on [example_chain] the builder
    returns the four columns (0,1), (1,0), (2,3), (3,2) with the labels
    1, 0, 1, 0: the edge (0,1) carries label 1 and its reverse (1,0)
    carries label 0. *)
Theorem labels_misaligned_on_chain :
  exists g,
    build_graph_from_example (H := latin1) example_chain ∅ 3
    = Returned (Some g)
    /\ labeled_edges g
       = [(0%nat, 1%nat, 1); (1%nat, 0%nat, 0);
          (2%nat, 3%nat, 1); (3%nat, 2%nat, 0)]
    /\ (0%nat, 1%nat, 1) ∈ labeled_edges g
    /\ (1%nat, 0%nat, 1) ∉ labeled_edges g.
Proof.
  eexists. split; [vm_compute; reflexivity|].
  split; [reflexivity|]. split.
  - apply list_elem_of_here.
  - apply (bool_decide_unpack _). vm_compute. exact I.
Qed.

(** C3 (counterexample): every pair of [example_mutual] references
    existing nodes and its best pair is the first entry, yet the graph has
    two edge columns for two pairs, and a single label 1. *)
Lemma build_graph_edge_count_mutual :
  let m :=
    node_map (build_nodes (H := latin1) ∅ 3 (clauses example_mutual)) in
  (forall p, p ∈ resolvable_pairs example_mutual -> references_nodes m p)
  /\ (exists bp, _extract_best_pair example_mutual = Some bp
                 /\ bp ∈ resolvable_pairs example_mutual)
  /\ exists g,
       build_graph_from_example (H := latin1) example_mutual ∅ 3
       = Returned (Some g)
       /\ size1 (edge_index g) = 2%nat
       /\ size1 (edge_index g)
          <> (2 * length (resolvable_pairs example_mutual))%nat
       /\ count_occ Z.eq_dec (y g) 1 = 1%nat.
Proof.
  split; [|split].
  - intros p Hp. simpl in Hp.
    apply elem_of_cons in Hp as [-> | Hp];
      [| apply elem_of_cons in Hp as [-> | Hp];
         [| by apply elem_of_nil in Hp]].
    + by exists 0, 0, 0%nat, 1%nat.
    + by exists 0, 0, 1%nat, 0%nat.
  - exists (pair 0 0 1 0). split; [reflexivity | apply list_elem_of_here].
  - eexists. split; [vm_compute; reflexivity|].
    split; [reflexivity|]. split; [vm_compute; lia | reflexivity].
Qed.

Lemma build_graph_edge_count_witness :
  exists g,
    build_graph_from_example (H := latin1) example_chain ∅ 3
    = Returned (Some g)
    /\ size1 (edge_index g) = 4%nat
    /\ length (y g) = 4%nat
    /\ count_occ Z.eq_dec (y g) 1 = 2%nat.
Proof.
  apply (build_graph_edge_count (H := latin1) example_chain ∅ 3).
  - lia.
  - intros p Hp. simpl in Hp.
    apply elem_of_cons in Hp as [-> | Hp];
      [| apply elem_of_cons in Hp as [-> | Hp];
         [| by apply elem_of_nil in Hp]].
    + by exists 0, 0, 0%nat, 1%nat.
    + by exists 1, 0, 2%nat, 3%nat.
  - exists (pair 0 0 1 0). split; [reflexivity | apply list_elem_of_here].
  - apply (bool_decide_unpack _). vm_compute. exact I.
Defined.

(** C5 (counterexample): [example_no_literal] has no literal, so its only
    pair dangles, and the builder raises instead of returning [None]. *)
Lemma build_graph_raises_without_literal :
  let m :=
    node_map (build_nodes (H := latin1) ∅ 3 (clauses example_no_literal)) in
  (forall p, p ∈ resolvable_pairs example_no_literal -> malformed m p)
  /\ build_graph_from_example (H := latin1) example_no_literal ∅ 3
     = Raised RuntimeError.
Proof.
  split; [|reflexivity].
  intros p Hp. simpl in Hp.
  apply elem_of_cons in Hp as [-> | Hp]; [|by apply elem_of_nil in Hp].
  right. right. left. by exists 0.
Qed.

Lemma build_graph_all_malformed_witness :
  build_graph_from_example (H := latin1) example_dangling ∅ 3 = Returned None.
Proof.
  apply (build_graph_all_malformed (H := latin1) example_dangling ∅ 3).
  - lia.
  - exists (clause_of "c0" ["P(x)"%string]).
    split; [apply list_elem_of_here | done].
  - intros p Hp. simpl in Hp.
    apply elem_of_cons in Hp as [-> | Hp];
      [| apply elem_of_cons in Hp as [-> | Hp];
         [| by apply elem_of_nil in Hp]].
    + right. right. left. by exists 5.
    + by left.
Defined.

(** *** Dataset *)

(** The attribute [examples] after construction is the list that was
    loaded (the assignment of line 193 is the last one). *)
Lemma init_examples
    (loaded : list Example) (predicate_list : option (list (list N)))
    (max_args : Z) (use_cache : bool) :
  examples (init loaded predicate_list max_args use_cache) = loaded.
Proof. reflexivity. Qed.

(** The list computed by the filter loop holds resolvable examples only. *)
Lemma filtered_examples_resolved (loaded : list Example) (ex : Example) :
  ex ∈ filtered_examples loaded -> _extract_best_pair ex <> None.
Proof.
  unfold filtered_examples. rewrite list_elem_of_In, filter_In.
  intros [_ Hres]. by apply bool_decide_eq_true in Hres.
Qed.

(** C1 (the code at a failing input): the best pair of
    [example_unresolved] does not resolve and the filter loop drops it,
    yet it is an example of the constructed dataset and [get(0)] hands it
    to the graph builder, which returns a graph for it. *)
Theorem unresolved_example_reaches_builder :
  let ds := init [example_unresolved] None 3 true in
  _extract_best_pair example_unresolved = None
  /\ filtered_examples [example_unresolved] = []
  /\ examples ds = [example_unresolved]
  /\ exists g,
       (get (H := latin1) ds 0).1 = Returned (Some g)
       /\ build_graph_from_example (H := latin1) example_unresolved
            (predicate_to_idx ds) (max_args ds)
          = Returned (Some g).
Proof.
  repeat split. eexists. split; vm_compute; reflexivity.
Qed.

(** *** Evaluation *)

Lemma length_filter_le {A} (f : A -> bool) (l : list A) :
  (length (List.filter f l) <= length l)%nat.
Proof.
  induction l as [|a l IH]; simpl; [done|]. destruct (f a); simpl; lia.
Qed.

(** Predictions and labels of equal number: the comparison returns, and
    no more agreements than labels. *)
Lemma count_equal_aligned (pred labels : list Z) :
  length pred = length labels ->
  exists c, count_equal pred labels = Returned c /\ (c <= length labels)%nat.
Proof.
  intros Hlen. unfold count_equal.
  rewrite bool_decide_eq_true_2 by done.
  eexists. split; [done|].
  etrans; [apply length_filter_le|].
  rewrite length_zip_with. lia.
Qed.

Lemma pos_of_nat_Z (n : nat) : n <> 0%nat -> Z.pos (Pos.of_nat n) = Z.of_nat n.
Proof.
  intros Hn. rewrite <- positive_nat_Z, Nat2Pos.id; done.
Qed.

Section EvaluateProperties.
Variable predict : list (list Z) -> list nat * list nat -> list Z.

Lemma evaluate_loop_aligned (loader : list Data) (acc : counters) :
  Forall (aligned predict) loader ->
  (correct acc <= total acc)%nat ->
  exists acc',
    evaluate_loop predict acc loader = Returned acc'
    /\ (correct acc' <= total acc')%nat.
Proof.
  intros Hall. revert acc.
  induction Hall as [|batch loader Hb Hall IH]; intros acc Hacc; simpl.
  - by exists acc.
  - unfold evaluate_step. case_bool_decide as Hy.
    + simpl. by apply IH.
    + destruct (count_equal_aligned
                  (predict (x batch) (edge_index batch)) (y batch))
        as (c & -> & Hc).
      { apply Hb. by destruct (y batch). }
      simpl. apply IH. simpl. lia.
Qed.

Lemma evaluate_loop_unlabelled (loader : list Data) (acc : counters) :
  Forall (fun batch => y batch = []) loader ->
  evaluate_loop predict acc loader = Returned acc.
Proof.
  induction 1 as [|batch loader Hb Hall IH]; simpl; [done|].
  unfold evaluate_step. by rewrite Hb.
Qed.

(** C8 (as the code has it): over a loader whose batches are aligned,
    [evaluate] returns a value between 0 and 1; and over any loader
    whose batches all have no label it returns 0. *)
Theorem evaluate_accuracy_range (loader : list Data) :
  (Forall (aligned predict) loader ->
   exists q, evaluate predict loader = Returned q
             /\ (0 <= q)%Q /\ (q <= 1)%Q)
  /\ (Forall (fun batch => y batch = []) loader ->
      evaluate predict loader = Returned 0%Q).
Proof.
  split.
  - intros Hall. unfold evaluate.
    destruct (evaluate_loop_aligned loader {| correct := 0; total := 0 |}
                Hall)
      as (acc & -> & Hacc); [done|].
    simpl. eexists. split; [done|].
    case_bool_decide as Ht; [done|].
    unfold Qle. simpl. rewrite pos_of_nat_Z by done. lia.
  - intros Hall. unfold evaluate.
    by rewrite evaluate_loop_unlabelled.
Qed.

End EvaluateProperties.

(** C8 (counterexample): the graph built for [example_tripled] has two
    edge columns and five labels, and [evaluate] raises on the loader that
    yields it; on a batch with two edge columns and one label it returns
    2. *)
Lemma evaluate_outside_range :
  (exists g,
     build_graph_from_example (H := latin1) example_tripled ∅ 3
     = Returned (Some g)
     /\ size1 (edge_index g) = 2%nat /\ length (y g) = 5%nat
     /\ evaluate predict_zero [batch_of g] = Raised RuntimeError)
  /\ evaluate predict_zero
       [{| x := []; edge_index := ([0; 1]%nat, [1; 0]%nat); y := [0] |}]
     = Returned 2%Q.
Proof.
  split; [|reflexivity].
  eexists. split; [vm_compute; reflexivity|]. repeat split.
Qed.

Lemma evaluate_accuracy_range_witness :
  (exists q, evaluate predict_zero
               [{| x := []; edge_index := ([0; 1]%nat, [1; 0]%nat);
                   y := [1; 0] |}] = Returned q
             /\ (0 <= q)%Q /\ (q <= 1)%Q)
  /\ evaluate predict_zero
       [{| x := []; edge_index := ([]%nat, []%nat); y := [] |}]
     = Returned 0%Q.
Proof.
  split.
  - apply (evaluate_accuracy_range predict_zero).
    repeat constructor.
  - apply (evaluate_accuracy_range predict_zero).
    repeat constructor.
Defined.

(** *** Predicate vocabulary *)

#[global] Instance str_le_total : Total str_le.
Proof.
  intros s1. unfold str_le.
  induction s1 as [|c1 s1 IH]; intros [|c2 s2]; simpl; auto.
  destruct (N.ltb_spec c1 c2), (N.ltb_spec c2 c1),
    (N.eqb_spec c1 c2), (N.eqb_spec c2 c1); auto; try lia.
Qed.

#[global] Instance str_le_trans : Transitive str_le.
Proof.
  intros s1. unfold str_le.
  induction s1 as [|c1 s1 IH]; intros [|c2 s2] [|c3 s3]; simpl; auto;
    try done.
  destruct (N.ltb_spec c1 c2), (N.ltb_spec c2 c3), (N.ltb_spec c1 c3),
    (N.eqb_spec c1 c2), (N.eqb_spec c2 c3), (N.eqb_spec c1 c3);
    try done; try lia; eauto.
Qed.

(** [sorted(seen)] lists the members of [seen] once each, in
    lexicographic order. *)
Lemma sorted_spec (seen : gset (list N)) :
  StronglySorted str_le (sorted seen)
  /\ NoDup (sorted seen)
  /\ forall name, name ∈ sorted seen <-> name ∈ seen.
Proof.
  unfold sorted. split; [|split].
  - apply StronglySorted_merge_sort; apply _.
  - rewrite merge_sort_Permutation. apply NoDup_elements.
  - intros name. rewrite merge_sort_Permutation. apply elem_of_elements.
Qed.

(** The names collected from one list of literals. *)
Lemma collect_literals_elem (name : list N) (lits : list (list N))
    (seen : gset (list N)) :
  name ∈ foldl
           (fun seen lit =>
              match match_predicate lit with
              | Some name => {[ name ]} ∪ seen
              | None => seen
              end) seen lits
  <-> name ∈ seen
      \/ exists lit, lit ∈ lits /\ match_predicate lit = Some name.
Proof.
  revert seen. induction lits as [|lit lits IH]; intros seen; simpl.
  - split; [auto|]. intros [?|(lit & Hin & _)]; [done|].
    by apply elem_of_nil in Hin.
  - rewrite IH. split.
    + intros [Hin | (lit' & Hin & Hm)].
      * destruct (match_predicate lit) as [name'|] eqn:E; [|auto].
        apply elem_of_union in Hin as [Hin | Hin]; [|auto].
        apply elem_of_singleton in Hin as ->.
        right. exists lit. split; [apply list_elem_of_here | done].
      * right. exists lit'. split; [by apply list_elem_of_further | done].
    + intros [Hin | (lit' & Hin & Hm)].
      * left. destruct (match_predicate lit); [|done].
        apply elem_of_union. auto.
      * apply elem_of_cons in Hin as [-> | Hin].
        -- left. rewrite Hm. apply elem_of_union. left.
           by apply elem_of_singleton.
        -- right. by exists lit'.
Qed.

Lemma collect_clauses_elem (name : list N) (cls : list Clause)
    (seen : gset (list N)) :
  name ∈ foldl
           (fun seen clause =>
              foldl
                (fun seen lit =>
                   match match_predicate lit with
                   | Some name => {[ name ]} ∪ seen
                   | None => seen
                   end) seen (literals clause)) seen cls
  <-> name ∈ seen
      \/ exists c lit, c ∈ cls /\ lit ∈ literals c
                       /\ match_predicate lit = Some name.
Proof.
  revert seen. induction cls as [|c cls IH]; intros seen; simpl.
  - split; [auto|]. intros [?|(c & lit & Hin & _)]; [done|].
    by apply elem_of_nil in Hin.
  - rewrite IH, collect_literals_elem. split.
    + intros [[Hin | (lit & Hin & Hm)] | (c' & lit & Hc & Hin & Hm)].
      * auto.
      * right. exists c, lit. split; [apply list_elem_of_here | done].
      * right. exists c', lit. split; [by apply list_elem_of_further | done].
    + intros [Hin | (c' & lit & Hc & Hin & Hm)]; [auto|].
      apply elem_of_cons in Hc as [-> | Hc].
      * left. right. by exists lit.
      * right. by exists c', lit.
Qed.

Lemma collect_examples_elem (name : list N) (exs : list Example)
    (seen : gset (list N)) :
  name ∈ foldl
           (fun seen ex =>
              foldl
                (fun seen clause =>
                   foldl
                     (fun seen lit =>
                        match match_predicate lit with
                        | Some name => {[ name ]} ∪ seen
                        | None => seen
                        end) seen (literals clause)) seen (clauses ex))
           seen exs
  <-> name ∈ seen
      \/ exists ex c lit, ex ∈ exs /\ c ∈ clauses ex /\ lit ∈ literals c
                          /\ match_predicate lit = Some name.
Proof.
  revert seen. induction exs as [|ex exs IH]; intros seen; simpl.
  - split; [auto|]. intros [?|(ex & c & lit & Hin & _)]; [done|].
    by apply elem_of_nil in Hin.
  - rewrite IH, collect_clauses_elem. split.
    + intros [[Hin | (c & lit & Hc & Hin & Hm)]
             | (ex' & c & lit & Hex & Hc & Hin & Hm)].
      * auto.
      * right. exists ex, c, lit. split; [apply list_elem_of_here | done].
      * right. exists ex', c, lit.
        split; [by apply list_elem_of_further | done].
    + intros [Hin | (ex' & c & lit & Hex & Hc & Hin & Hm)]; [auto|].
      apply elem_of_cons in Hex as [-> | Hex].
      * left. right. by exists c, lit.
      * right. by exists ex', c, lit.
Qed.

(** The collected names are those matched in some literal of some clause
    of some example. *)
Lemma collect_predicates_elem (name : list N) (exs : list Example) :
  name ∈ collect_predicates exs
  <-> exists ex c lit, ex ∈ exs /\ c ∈ clauses ex /\ lit ∈ literals c
                       /\ match_predicate lit = Some name.
Proof.
  unfold collect_predicates. rewrite collect_examples_elem.
  split; [|auto]. intros [Hin | Hex]; [|done].
  by apply not_elem_of_empty in Hin.
Qed.

(** The dictionary built from a list of names: a name absent from the
    list keeps its previous entry, a listed name gets the position of its
    last occurrence. *)
Lemma foldl_vocabulary_lookup
    (l : list (list N)) (s : nat) (acc : gmap (list N) Z) (name : list N) :
  let m :=
    foldl (fun m ip => <[ snd ip := Z.of_nat (fst ip) + 1 ]> m) acc
      (zip (seq s (length l)) l) in
  (name ∉ l -> m !! name = acc !! name)
  /\ (forall i : nat,
        l !! i = Some name ->
        (forall j : nat, (i < j)%nat -> l !! j <> Some name) ->
        m !! name = Some (Z.of_nat (s + i) + 1)).
Proof.
  revert s acc. induction l as [|a l IH]; intros s acc; simpl.
  - split; [done|]. by intros i Hi.
  - destruct (IH (S s) (<[a := Z.of_nat s + 1]> acc)) as [IHout IHin].
    split.
    + rewrite not_elem_of_cons. intros [Hne Hnin].
      rewrite IHout by done. by apply lookup_insert_ne.
    + intros [|i] Hi Hlast; simpl in Hi.
      * injection Hi as ->.
        rewrite IHout, lookup_insert_eq, Nat.add_0_r; [done|].
        intros Hin. apply list_elem_of_lookup in Hin as [j Hj].
        apply (Hlast (S j)); [lia | done].
      * rewrite (IHin i Hi).
        -- do 2 f_equal. lia.
        -- intros j Hij. apply (Hlast (S j)). lia.
Qed.

Lemma make_vocabulary_lookup (l : list (list N)) (name : list N) :
  (name ∉ l -> make_vocabulary l !! name = None)
  /\ (forall i : nat,
        l !! i = Some name ->
        (forall j : nat, (i < j)%nat -> l !! j <> Some name) ->
        make_vocabulary l !! name = Some (Z.of_nat i + 1)).
Proof.
  destruct (foldl_vocabulary_lookup l 0 ∅ name) as [Hout Hin].
  split.
  - intros Hnin. unfold make_vocabulary, enumerate.
    by rewrite Hout, lookup_empty.
  - intros i Hi Hlast. apply (Hin i Hi Hlast).
Qed.

Section VocabularyProperties.
Context `{UnicodeData}.

(** The second feature is the ID of the predicate, 0 for a predicate
    that is not in the vocabulary. *)
Lemma embed_literal_predicate_id
    (literal : list N) (vocab : gmap (list N) Z) (max_args : Z) :
  embed_literal literal vocab max_args !! 1%nat
  = Some (default 0 (vocab !! (parse_literal literal).1.2)).
Proof.
  unfold embed_literal.
  by destruct (parse_literal literal) as [[sign pred] args].
Qed.

(** C7 (as the code has it): the IDs follow a list of names,
    [pred_list]: a non-empty explicit list when one is supplied, else
    (no list, or an empty one) the names matched as an identifier before
    an opening parenthesis in all literals of all loaded examples, each
    once, in lexicographic order.  The name at position [i] (counted
    from 0) has ID [i + 1] (when a name is listed more than once, its
    last position counts), a name outside the list has no ID, and a
    predicate without ID is encoded as 0. *)
Theorem vocabulary_ids
    (loaded : list Example) (predicate_list : option (list (list N)))
    (max_args : Z) (use_cache : bool) :
  let vocab :=
    predicate_to_idx (init loaded predicate_list max_args use_cache) in
  exists pred_list : list (list N),
    (forall p l, predicate_list = Some (p :: l) -> pred_list = p :: l)
    /\ (predicate_list = None \/ predicate_list = Some [] ->
        StronglySorted str_le pred_list
        /\ NoDup pred_list
        /\ forall name,
             name ∈ pred_list
             <-> exists ex c lit,
                   ex ∈ loaded /\ c ∈ clauses ex /\ lit ∈ literals c
                   /\ match_predicate lit = Some name)
    /\ (forall (i : nat) name,
          pred_list !! i = Some name ->
          (forall j : nat, (i < j)%nat -> pred_list !! j <> Some name) ->
          vocab !! name = Some (Z.of_nat i + 1))
    /\ (forall name, name ∉ pred_list -> vocab !! name = None)
    /\ (forall literal max_args',
          vocab !! (parse_literal literal).1.2 = None ->
          embed_literal literal vocab max_args' !! 1%nat = Some 0).
Proof.
  simpl.
  exists (match predicate_list with
          | Some (p :: l) => p :: l
          | _ => sorted (collect_predicates loaded)
          end).
  split; [by intros p l ->|].
  split.
  { intros Hauto.
    assert (Hlist : match predicate_list with
                    | Some (p :: l) => p :: l
                    | _ => sorted (collect_predicates loaded)
                    end = sorted (collect_predicates loaded))
      by (by destruct Hauto as [-> | ->]).
    rewrite Hlist.
    destruct (sorted_spec (collect_predicates loaded)) as (Hs & Hnd & Hel).
    split; [done|]. split; [done|].
    intros name. by rewrite Hel, collect_predicates_elem. }
  split; [|split].
  - intros i name. apply make_vocabulary_lookup.
  - intros name. apply make_vocabulary_lookup.
  - intros literal max_args' Hnone.
    by rewrite embed_literal_predicate_id, Hnone.
Qed.

End VocabularyProperties.

(** C7 (counterexample): with the explicit list P, P the name listed
    first has ID 2, not 1; and with an explicit empty list the names are
    collected from the examples all the same, so that P has ID 1. *)
Lemma vocabulary_not_in_list_order :
  let repeated := [py "P"; py "P"] in
  let v1 := predicate_to_idx (init [] (Some repeated) 3 true) in
  let v2 := predicate_to_idx (init [example_inline] (Some []) 3 true) in
  (repeated !! 0%nat = Some (py "P") /\ v1 !! (py "P") = Some 2)
  /\ v2 !! (py "P") = Some 1.
Proof. repeat split; vm_compute; reflexivity. Qed.

Lemma vocabulary_ids_witness :
  let vocab := predicate_to_idx (init [] (Some [py "Q"; py "P"]) 3 true) in
  vocab !! (py "P") = Some 2.
Proof.
  destruct (vocabulary_ids (H := latin1) [] (Some [py "Q"; py "P"]) 3 true)
    as (pred_list & Hlist & _ & Hid & _).
  rewrite (Hlist _ _ eq_refl) in Hid.
  apply (Hid 1%nat); [reflexivity|].
  intros [|[|j]] Hj; (lia || done).
Defined.

(** ** Further properties *)

(** *** More on strings *)

Lemma lstrip_idemp (s : list N) : Py.lstrip (Py.lstrip s) = Py.lstrip s.
Proof.
  induction s as [|c s IH]; simpl; [done|].
  destruct (Py.isspace c) eqn:E; [done|]. simpl. by rewrite E.
Qed.

Lemma lstrip_snoc (s : list N) (c : N) :
  Py.lstrip (s ++ [c])
  = match Py.lstrip s with
    | [] => if Py.isspace c then [] else [c]
    | r => r ++ [c]
    end.
Proof.
  induction s as [|c' s IH]; simpl; [done|].
  destruct (Py.isspace c'); done.
Qed.

(** [rstrip] from the front of the string. *)
Lemma rstrip_cons (c : N) (s : list N) :
  Py.rstrip (c :: s)
  = match Py.rstrip s with
    | [] => if Py.isspace c then [] else [c]
    | r => c :: r
    end.
Proof.
  unfold Py.rstrip. simpl. rewrite lstrip_snoc.
  destruct (Py.lstrip (rev s)) as [|c' r] eqn:E; simpl.
  - by destruct (Py.isspace c).
  - rewrite rev_app_distr. simpl.
    destruct (rev r ++ [c']) eqn:E'; [by destruct (rev r)|done].
Qed.

Lemma rstrip_nonspace_cons (c : N) (s : list N) :
  Py.isspace c = false -> Py.rstrip (c :: s) = c :: Py.rstrip s.
Proof.
  intros Hc. rewrite rstrip_cons, Hc. by destruct (Py.rstrip s).
Qed.

Lemma rstrip_app_nonspace (p : list N) (c : N) (s : list N) :
  Py.isspace c = false -> Py.rstrip (p ++ c :: s) = p ++ c :: Py.rstrip s.
Proof.
  intros Hc. induction p as [|c' p IH]; simpl.
  - by apply rstrip_nonspace_cons.
  - rewrite rstrip_cons, IH. by destruct p.
Qed.

Lemma rstrip_idemp (s : list N) : Py.rstrip (Py.rstrip s) = Py.rstrip s.
Proof. unfold Py.rstrip. by rewrite rev_involutive, lstrip_idemp. Qed.

Lemma lstrip_rstrip (s : list N) :
  Py.lstrip (Py.rstrip s) = Py.rstrip (Py.lstrip s).
Proof.
  induction s as [|c s IH]; [done|]. simpl.
  destruct (Py.isspace c) eqn:E.
  - rewrite rstrip_cons, E. destruct (Py.rstrip s) as [|c' r] eqn:E'.
    + by rewrite <- IH.
    + rewrite <- IH. simpl. by rewrite E.
  - rewrite rstrip_nonspace_cons by done. simpl. by rewrite E.
Qed.

Lemma strip_idemp (s : list N) : Py.strip (Py.strip s) = Py.strip s.
Proof.
  unfold Py.strip.
  by rewrite lstrip_rstrip, lstrip_idemp, rstrip_idemp.
Qed.

Lemma lstrip_spaces_app (ws s : list N) :
  Forall (fun c => Py.isspace c = true) ws -> Py.lstrip (ws ++ s) = Py.lstrip s.
Proof. induction 1 as [|c ws Hc _ IH]; simpl; [done|]. by rewrite Hc. Qed.

Lemma rstrip_app_spaces (s ws : list N) :
  Forall (fun c => Py.isspace c = true) ws -> Py.rstrip (s ++ ws) = Py.rstrip s.
Proof.
  intros Hws. unfold Py.rstrip.
  rewrite rev_app_distr, lstrip_spaces_app; [done|].
  by apply Forall_rev.
Qed.

Lemma strip_surrounded (ws1 s ws2 : list N) :
  Forall (fun c => Py.isspace c = true) ws1 ->
  Forall (fun c => Py.isspace c = true) ws2 ->
  Py.strip (ws1 ++ s ++ ws2) = Py.strip s.
Proof.
  intros H1 H2. unfold Py.strip.
  rewrite lstrip_spaces_app by done.
  by rewrite <- !lstrip_rstrip, rstrip_app_spaces.
Qed.

(** X1: white space before and after a literal does not change what is
    parsed. *)
Theorem parse_literal_surrounded (ws1 literal ws2 : list N) :
  Forall (fun c => Py.isspace c = true) ws1 ->
  Forall (fun c => Py.isspace c = true) ws2 ->
  parse_literal (ws1 ++ literal ++ ws2) = parse_literal literal.
Proof.
  intros H1 H2. unfold parse_literal. by rewrite strip_surrounded.
Qed.

Lemma slice_from_1 {A} (l : list A) : Py.slice l (Some 1) None = drop 1 l.
Proof.
  unfold Py.slice, Py.slice_bound. simpl.
  destruct l as [|a l]; [done|]. simpl length.
  rewrite Z.min_l by lia. simpl. rewrite drop_0. apply take_ge. lia.
Qed.

Lemma span_ident_spec (s name rest : list N) :
  span_ident s = (name, rest) ->
  s = name ++ rest /\ Forall (fun c => is_ident_char c = true) name.
Proof.
  revert name rest. induction s as [|c s IH]; intros name rest; simpl.
  - by intros [= <- <-].
  - destruct (is_ident_char c) eqn:E.
    + destruct (span_ident s) as [name' rest'] eqn:E'.
      intros [= <- <-]. destruct (IH _ _ eq_refl) as [-> Hall].
      split; [done|]. by constructor.
    + by intros [= <- <-].
Qed.

Lemma is_ident_char_plain (c : N) :
  is_ident_char c = true ->
  Py.isspace c = false /\ c <> Py.lparen /\ c <> Py.tilde /\ c <> Py.notsign
  /\ c <> Py.comma.
Proof.
  unfold is_ident_char, Py.isspace, Py.lparen, Py.tilde, Py.notsign, Py.comma.
  rewrite !orb_true_iff, !andb_true_iff, !N.leb_le, N.eqb_eq.
  intros Hc. repeat split; try lia.
  apply not_true_iff_false.
  rewrite !orb_true_iff, !andb_true_iff, !N.leb_le, !N.eqb_eq. lia.
Qed.

Lemma split1_head_app (p : list N) (c : N) (s : list N) :
  c ∉ p -> Py.split1_head c (p ++ c :: s) = p.
Proof.
  induction p as [|c' p IH]; simpl.
  - by rewrite N.eqb_refl.
  - rewrite not_elem_of_cons. intros [Hne Hnin].
    destruct (N.eqb_spec c' c) as [->|_]; [done|]. by rewrite IH.
Qed.

Lemma startswith_marker_false (c : N) (s : list N) :
  c <> Py.tilde -> c <> Py.notsign ->
  Py.startswith (c :: s) Py.notsign || Py.startswith (c :: s) Py.tilde = false.
Proof.
  intros H1 H2. simpl.
  destruct (N.eqb_spec c Py.notsign), (N.eqb_spec c Py.tilde); done.
Qed.

Lemma parse_literal_pred (literal : list N) :
  (parse_literal literal).1.2 = Py.split1_head Py.lparen (literal_core literal).
Proof.
  unfold parse_literal, literal_core, negated.
  by destruct (Py.startswith (Py.strip literal) Py.notsign
               || Py.startswith (Py.strip literal) Py.tilde).
Qed.

(** The core of a literal that the vocabulary pattern matches. *)
Lemma match_predicate_core (lit name : list N) :
  match_predicate lit = Some name ->
  name <> [] /\ Forall (fun c => is_ident_char c = true) name
  /\ exists rest, literal_core lit = name ++ Py.lparen :: rest.
Proof.
  unfold match_predicate.
  destruct (span_ident _) as [[|c name'] [|c' rest]] eqn:Hspan; try done.
  destruct (N.eqb_spec c' Py.lparen) as [->|]; [|done].
  intros [= <-].
  apply span_ident_spec in Hspan as [Hs3 Hident].
  split; [done|]. split; [done|]. exists (Py.rstrip rest).
  pose proof (Forall_inv Hident) as Hc. apply is_ident_char_plain in Hc
    as (Hcsp & _ & Hct & Hcn & _).
  assert (Hcore : forall s, Py.lstrip s = (c :: name') ++ Py.lparen :: rest ->
            Py.rstrip (Py.lstrip s)
            = (c :: name') ++ Py.lparen :: Py.rstrip rest).
  { intros s ->. by apply rstrip_app_nonspace. }
  unfold literal_core, negated, Py.strip.
  destruct (Py.lstrip lit) as [|m r] eqn:Hs1; [done|].
  destruct (Py.startswith (m :: r) Py.tilde
            || Py.startswith (m :: r) Py.notsign) eqn:Hm.
  - assert (Hmsp : Py.isspace m = false).
    { simpl in Hm. apply orb_true_iff in Hm.
      destruct Hm as [Hm|Hm]; apply N.eqb_eq in Hm; by subst m. }
    rewrite slice_from_1 in Hs3. simpl in Hs3. rewrite drop_0 in Hs3.
    rewrite rstrip_nonspace_cons by done.
    assert (Hneg : Py.startswith (m :: Py.rstrip r) Py.notsign
                   || Py.startswith (m :: Py.rstrip r) Py.tilde = true)
      by (simpl in *; by rewrite orb_comm).
    rewrite Hneg, slice_from_1. simpl drop. rewrite drop_0.
    by rewrite lstrip_rstrip, rstrip_idemp, (Hcore r Hs3).
  - assert (Hs1' : Py.lstrip (m :: r) = (c :: name') ++ Py.lparen :: rest).
    { rewrite <- Hs3, <- Hs1. by rewrite lstrip_idemp. }
    rewrite <- Hs1' in Hs3. rewrite <- Hs1, lstrip_idemp, Hs1 in Hs1'.
    injection Hs1' as -> ->.
    rewrite rstrip_nonspace_cons by done.
    rewrite startswith_marker_false by done.
    change (c :: Py.rstrip (name' ++ Py.lparen :: rest))
      with ([c] ++ Py.rstrip (name' ++ Py.lparen :: rest)).
    by rewrite rstrip_app_nonspace.
Qed.

Lemma match_predicate_pred (lit name : list N) :
  match_predicate lit = Some name -> (parse_literal lit).1.2 = name.
Proof.
  intros Hm. destruct (match_predicate_core lit name Hm)
    as (Hne & Hident & rest & Hcore).
  rewrite parse_literal_pred, Hcore. apply split1_head_app.
  intros Hin. rewrite Forall_forall in Hident.
  apply Hident, is_ident_char_plain in Hin. tauto.
Qed.

(** X4: a literal that the vocabulary pattern matches is parsed with the
    matched name as its predicate, and that name is a non-empty run of
    the characters A-Z, a-z, 0-9 and underscore. *)
Theorem match_predicate_parse_literal (lit name : list N) :
  match_predicate lit = Some name ->
  (parse_literal lit).1.2 = name
  /\ name <> [] /\ Forall (fun c => is_ident_char c = true) name.
Proof.
  intros Hm. split; [by apply match_predicate_pred|].
  by destruct (match_predicate_core lit name Hm) as (Hne & Hident & _).
Qed.

Lemma lstrip_fixed_head (c : N) (s : list N) :
  Py.lstrip (c :: s) = c :: s -> Py.isspace c = false.
Proof.
  simpl. destruct (Py.isspace c); [|done]. intros Heq.
  pose proof (lstrip_suffix s) as Hsuf. rewrite Heq in Hsuf.
  apply suffix_length in Hsuf. simpl in Hsuf. lia.
Qed.

Lemma strip_fixed_lstrip (s : list N) : Py.strip s = s -> Py.lstrip s = s.
Proof.
  intros Hs. rewrite <- Hs at 1. unfold Py.strip.
  rewrite lstrip_rstrip, lstrip_idemp. exact Hs.
Qed.

Lemma strip_fixed_rstrip (s : list N) : Py.strip s = s -> Py.rstrip s = s.
Proof.
  intros Hs. rewrite <- Hs at 1. unfold Py.strip. rewrite rstrip_idemp.
  exact Hs.
Qed.

Lemma lstrip_rstrip_fixed (s : list N) :
  Py.lstrip s = s -> Py.rstrip s = s -> Py.strip s = s.
Proof. intros Hl Hr. unfold Py.strip. by rewrite Hl. Qed.

Lemma rstrip_snoc_nonspace (p : list N) (c : N) :
  Py.isspace c = false -> Py.rstrip (p ++ [c]) = p ++ [c].
Proof. intros Hc. by rewrite rstrip_app_nonspace. Qed.

Lemma isspace_punctuation :
  Py.isspace Py.lparen = false /\ Py.isspace Py.rparen = false
  /\ Py.isspace Py.comma = false /\ Py.isspace Py.tilde = false
  /\ Py.isspace Py.notsign = false.
Proof. repeat split. Qed.

(** Joining stripped pieces gives a stripped string. *)
Lemma strip_join (args : list (list N)) :
  Forall (fun a => Py.strip a = a) args ->
  Py.strip (join Py.comma args) = join Py.comma args.
Proof.
  induction 1 as [|a args Ha Hargs IH]; [done|].
  destruct args as [|a' args]; [done|].
  change (join Py.comma (a :: a' :: args))
    with (a ++ Py.comma :: join Py.comma (a' :: args)).
  apply lstrip_rstrip_fixed.
  - destruct a as [|c a]; [done|].
    apply strip_fixed_lstrip, lstrip_fixed_head in Ha. simpl. by rewrite Ha.
  - rewrite rstrip_app_nonspace by done. by rewrite (strip_fixed_rstrip _ IH).
Qed.

Lemma split_no_sep (sep : N) (p : list N) :
  sep ∉ p -> Py.split sep p = [p].
Proof.
  induction p as [|c p IH]; [done|]. simpl.
  rewrite not_elem_of_cons. intros [Hne Hnin].
  destruct (N.eqb_spec c sep) as [->|_]; [done|]. by rewrite IH.
Qed.

Lemma split_app_sep (sep : N) (p s : list N) :
  sep ∉ p -> Py.split sep (p ++ sep :: s) = p :: Py.split sep s.
Proof.
  induction p as [|c p IH]; simpl.
  - by rewrite N.eqb_refl.
  - rewrite not_elem_of_cons. intros [Hne Hnin].
    destruct (N.eqb_spec c sep) as [->|_]; [done|]. by rewrite IH.
Qed.

(** Splitting undoes joining when no piece holds the separator. *)
Lemma split_join (sep : N) (args : list (list N)) :
  args <> [] -> Forall (fun a => sep ∉ a) args ->
  Py.split sep (join sep args) = args.
Proof.
  intros Hne Hall. induction Hall as [|a args Ha Hargs IH]; [done|].
  destruct args as [|a' args]; [by apply split_no_sep|].
  change (join sep (a :: a' :: args))
    with (a ++ sep :: join sep (a' :: args)).
  rewrite split_app_sep by done. by rewrite IH.
Qed.

Lemma join_nil (sep : N) (args : list (list N)) :
  join sep args = [] -> args = [] \/ args = [[]].
Proof.
  destruct args as [|a [|a' args]]; simpl; [auto| |].
  - intros ->. auto.
  - intros Heq. by apply app_eq_nil in Heq as [_ Heq].
Qed.

(** The slice between the character after a prefix and the last one. *)
Lemma slice_inner {A} (p m : list A) (c d : A) :
  Py.slice (p ++ c :: m ++ [d]) (Some (Z.of_nat (length p) + 1)) (Some (-1))
  = m.
Proof.
  unfold Py.slice. cbn [from_option].
  set (l := p ++ c :: m ++ [d]).
  assert (Hlen : length l = (length p + 1 + length m + 1)%nat).
  { unfold l. rewrite length_app. simpl. rewrite length_app. simpl. lia. }
  assert (Hlo : Py.slice_bound (length l) (Z.of_nat (length p) + 1)
                = (length p + 1)%nat).
  { unfold Py.slice_bound.
    destruct (Z.ltb_spec (Z.of_nat (length p) + 1) 0); lia. }
  assert (Hhi : Py.slice_bound (length l) (-1)
                = (length p + 1 + length m)%nat).
  { unfold Py.slice_bound. simpl. lia. }
  rewrite Hlo, Hhi.
  replace (length p + 1 + length m - (length p + 1))%nat with (length m)
    by lia.
  unfold l. replace (p ++ c :: m ++ [d]) with ((p ++ [c]) ++ m ++ [d])
    by (by rewrite <- app_assoc).
  rewrite drop_app_length' by (rewrite length_app; simpl; lia).
  by rewrite take_app_length.
Qed.

(** [parse_literal] in terms of the sign test and the core. *)
Lemma parse_literal_eq (literal : list N) :
  parse_literal literal
  = let core := literal_core literal in
    let pred := Py.split1_head Py.lparen core in
    let inside :=
      Py.strip
        (Py.slice core (Some (Z.of_nat (length pred) + 1)) (Some (-1))) in
    (if negated literal then -1 else 1, pred,
     match inside with
     | [] => []
     | _ => map Py.strip (Py.split Py.comma inside)
     end).
Proof.
  unfold parse_literal, literal_core, negated.
  by destruct (Py.startswith (Py.strip literal) Py.notsign
               || Py.startswith (Py.strip literal) Py.tilde).
Qed.

(** X3: parsing the text [pred(arg1,...,argk)], after a tilde when
    negated, gives back the sign, the predicate and the arguments, when
    the predicate holds no opening parenthesis and does not start with
    white space or a negation sign, and the arguments are stripped, hold
    no comma and are not the single empty string. *)
Theorem parse_literal_text
    (neg : bool) (pred : list N) (args : list (list N)) :
  Py.lparen ∉ pred ->
  (forall c r, pred = c :: r ->
     Py.isspace c = false /\ c <> Py.tilde /\ c <> Py.notsign) ->
  Forall (fun a => (Py.comma ∉ a) /\ Py.strip a = a) args ->
  args <> [[]] ->
  parse_literal (literal_text neg pred args)
  = (if neg then -1 else 1, pred, args).
Proof.
  intros Hparen Hhead Hargs Hne.
  set (J := join Py.comma args).
  set (body := pred ++ Py.lparen :: J ++ [Py.rparen]).
  assert (HJ : Py.strip J = J).
  { apply strip_join. eapply Forall_impl; [exact Hargs|]. by intros a [_ ?]. }
  assert (Hbody_head : exists c r, body = c :: r /\ Py.isspace c = false
                                   /\ c <> Py.tilde /\ c <> Py.notsign).
  { unfold body. destruct pred as [|c r].
    - exists Py.lparen, (J ++ [Py.rparen]). by repeat split.
    - destruct (Hhead c r eq_refl) as (? & ? & ?).
      by exists c, (r ++ Py.lparen :: J ++ [Py.rparen]). }
  assert (Hbody : Py.strip body = body).
  { destruct Hbody_head as (c & r & Hcr & Hc & _).
    apply lstrip_rstrip_fixed.
    - rewrite Hcr. simpl. by rewrite Hc.
    - unfold body.
      replace (pred ++ Py.lparen :: J ++ [Py.rparen])
        with ((pred ++ Py.lparen :: J) ++ [Py.rparen])
        by (by rewrite <- app_assoc).
      by apply rstrip_snoc_nonspace. }
  assert (Hcore : literal_core (literal_text neg pred args) = body
                  /\ negated (literal_text neg pred args) = neg).
  { unfold literal_core, negated, literal_text. fold J body.
    destruct neg; simpl app.
    - assert (Hs : Py.strip (Py.tilde :: body) = Py.tilde :: body).
      { apply lstrip_rstrip_fixed; [done|].
        rewrite rstrip_nonspace_cons by done.
        by rewrite (strip_fixed_rstrip _ Hbody). }
      rewrite Hs. simpl. rewrite slice_from_1. simpl. by rewrite drop_0.
    - rewrite Hbody. destruct Hbody_head as (c & r & -> & _ & Ht & Hn).
      by rewrite startswith_marker_false. }
  destruct Hcore as [Hcore Hneg].
  rewrite parse_literal_eq, Hneg, Hcore. cbn zeta. unfold body.
  rewrite split1_head_app by done. rewrite slice_inner, HJ.
  f_equal. destruct J as [|c J'] eqn:EJ.
  - destruct (join_nil _ _ EJ) as [-> | ->]; done.
  - rewrite <- EJ. unfold J. rewrite split_join.
    + clear -Hargs. induction Hargs as [|a args [_ Ha] _ IH]; [done|].
      simpl. by rewrite Ha, IH.
    + intros ->. done.
    + eapply Forall_impl; [exact Hargs|]. by intros a [? _].
Qed.

Lemma split_pieces (sep : N) (s : list N) :
  Forall (fun p => sep ∉ p) (Py.split sep s).
Proof.
  induction s as [|c s IH]; simpl.
  - constructor; [apply not_elem_of_nil | constructor].
  - destruct (N.eqb_spec c sep) as [->|Hne].
    + constructor; [apply not_elem_of_nil | done].
    + destruct (Py.split sep s) as [|p ps]; simpl.
      * constructor; [|constructor].
        rewrite list_elem_of_singleton. congruence.
      * apply Forall_cons in IH as [Hp Hps]. constructor; [|done].
        rewrite not_elem_of_cons. split; [congruence | done].
Qed.

Lemma split1_head_no_sep (sep : N) (s : list N) : sep ∉ Py.split1_head sep s.
Proof.
  induction s as [|c s IH]; simpl; [apply not_elem_of_nil|].
  destruct (N.eqb_spec c sep) as [->|Hne]; [apply not_elem_of_nil|].
  rewrite not_elem_of_cons. split; [congruence | done].
Qed.

Lemma split1_head_head (sep c : N) (r s : list N) :
  Py.split1_head sep s = c :: r -> exists s', s = c :: s'.
Proof.
  destruct s as [|c' s]; simpl; [done|].
  destruct (c' =? sep)%N; [done|]. intros [= -> _]. by exists s.
Qed.

Lemma split_length (sep : N) (s : list N) :
  (1 <= length (Py.split sep s))%nat
  /\ (sep ∈ s -> (2 <= length (Py.split sep s))%nat).
Proof.
  induction s as [|c s [IH1 IH2]]; simpl.
  - split; [lia|]. intros Hin. by apply elem_of_nil in Hin.
  - destruct (N.eqb_spec c sep) as [->|Hne]; simpl.
    + split; lia.
    + destruct (Py.split sep s) as [|p ps]; simpl in *; [lia|].
      split; [lia|]. intros Hin.
      apply elem_of_cons in Hin as [?|Hin]; [congruence | auto].
Qed.

Lemma literal_core_stripped (literal : list N) :
  Py.strip (literal_core literal) = literal_core literal.
Proof. unfold literal_core. destruct (negated literal); apply strip_idemp. Qed.

(** X2: what [parse_literal] returns for any string: a sign 1 or -1, a
    predicate without opening parenthesis and without leading white
    space, and arguments that are stripped and hold no comma; the
    argument list is never the single empty string. *)
Theorem parse_literal_invariants (literal : list N) :
  let '(sign, pred, args) := parse_literal literal in
  (sign = 1 \/ sign = -1)
  /\ (Py.lparen ∉ pred)
  /\ (forall c r, pred = c :: r -> Py.isspace c = false)
  /\ Forall (fun a => (Py.comma ∉ a) /\ Py.strip a = a) args
  /\ args <> [[]].
Proof.
  rewrite parse_literal_eq. cbn zeta.
  set (core := literal_core literal).
  set (inside := Py.strip (Py.slice core _ _)).
  split; [destruct (negated literal); auto|].
  split; [apply split1_head_no_sep|].
  split.
  { intros c r Hpred. apply split1_head_head in Hpred as [s' Hs'].
    apply (lstrip_fixed_head c s'). rewrite <- Hs'.
    apply strip_fixed_lstrip, literal_core_stripped. }
  assert (Hin : Py.strip inside = inside) by apply strip_idemp.
  clearbody inside. destruct inside as [|c inside]; [by split|].
  split.
  - apply Forall_fmap. eapply Forall_impl; [apply split_pieces|].
    intros p Hp. simpl. split; [|apply strip_idemp].
    intros Hc. by apply Hp, strip_elem.
  - intros Heq.
    destruct (decide (Py.comma ∈ c :: inside)) as [Hcomma|Hnocomma].
    + apply (split_length Py.comma) in Hcomma.
      apply (f_equal length) in Heq. rewrite length_map in Heq.
      change (length [[] : list N]) with 1%nat in Heq. lia.
    + rewrite split_no_sep in Heq by done. simpl in Heq.
      rewrite Hin in Heq. done.
Qed.

(** *** More on the graph builder *)

Lemma stack_returned (rows r : list (list Z)) :
  stack rows = Returned r -> r = rows /\ rows <> [].
Proof.
  unfold stack. destruct rows as [|t ts]; [done|].
  destruct (forallb _ ts); [|done]. by intros [= <-].
Qed.

Lemma stack_raised (rows : list (list Z)) (e : exn) :
  stack rows = Raised e -> e = RuntimeError.
Proof.
  unfold stack. destruct rows as [|t ts]; [by intros [= <-]|].
  destruct (forallb _ ts); [done | by intros [= <-]].
Qed.

Lemma emitted_Some_references
    (m : gmap (Z * Z) nat) (best : option Pair) (p : Pair) (e : nat * nat * Z) :
  emitted m best p = Some e ->
  references_nodes m p
  /\ (exists a b, literalA_index p = Some a /\ literalB_index p = Some b
        /\ node_lookup m (clauseA_index p) a = Some e.1.1
        /\ node_lookup m (clauseB_index p) b = Some e.1.2
        /\ e.2 = if is_best best (clauseA_index p) a (clauseB_index p) b
                 then 1 else 0).
Proof.
  unfold emitted, references_nodes.
  destruct (literalA_index p) as [a|], (literalB_index p) as [b|]; try done.
  destruct (node_lookup m (clauseA_index p) a) as [src|] eqn:Hs; [|done].
  destruct (node_lookup m (clauseB_index p) b) as [dst|] eqn:Hd; [|done].
  intros [= <-]. split.
  - by exists a, b, src, dst.
  - by exists a, b.
Qed.

Lemma emitted_None_malformed
    (m : gmap (Z * Z) nat) (best : option Pair) (p : Pair) :
  emitted m best p = None -> malformed m p.
Proof.
  unfold emitted, malformed.
  destruct (literalA_index p) as [a|]; [|auto].
  destruct (literalB_index p) as [b|]; [|auto].
  destruct (node_lookup m (clauseA_index p) a) as [src|] eqn:Hs.
  - destruct (node_lookup m (clauseB_index p) b) as [dst|] eqn:Hd; [done|].
    intros _. right. right. right. by exists b.
  - intros _. right. right. left. by exists a.
Qed.

Lemma malformed_not_references (m : gmap (Z * Z) nat) (p : Pair) :
  malformed m p -> ~ references_nodes m p.
Proof.
  intros Hmal (a & b & src & dst & Ha & Hb & Hs & Hd).
  destruct Hmal as [Hn | [Hn | [(a' & Ha' & Hn) | (b' & Hb' & Hn)]]];
    congruence.
Qed.

Lemma omap_nil_inv {A B} (f : A -> option B) (l : list A) :
  omap f l = [] -> forall a, a ∈ l -> f a = None.
Proof.
  induction l as [|a l IH]; simpl; intros Hnil a' Ha'.
  - by apply elem_of_nil in Ha'.
  - destruct (f a) eqn:E; [done|].
    apply elem_of_cons in Ha' as [-> | Ha']; [done | by apply IH].
Qed.

Lemma omap_cons_inv {A B}
    (f : A -> option B) (l : list A) (b : B) (bs : list B) :
  omap f l = b :: bs -> exists a, a ∈ l /\ f a = Some b.
Proof.
  induction l as [|a l IH]; simpl; [done|].
  destruct (f a) as [b'|] eqn:E.
  - intros [= -> _]. exists a. split; [apply list_elem_of_here | done].
  - intros Heq. destruct (IH Heq) as (a' & Ha' & Hf).
    exists a'. split; [by apply list_elem_of_further | done].
Qed.

Lemma concat_no_literal (cls : list Clause) :
  Forall (fun c => literals c = []) cls -> concat (map literals cls) = [].
Proof. induction 1 as [|c cls Hc _ IH]; [done|]. simpl. by rewrite Hc. Qed.

Section MoreBuilderProperties.
Context `{UnicodeData}.

(** The counter of the node loop is the number of features. *)
Lemma build_nodes_g_idx (vocab : gmap (list N) Z) (max_args : Z)
    (cls : list Clause) :
  g_idx (build_nodes vocab max_args cls)
  = length (node_features (build_nodes vocab max_args cls)).
Proof.
  unfold build_nodes.
  set (inv := fun acc : node_acc => g_idx acc = length (node_features acc)).
  assert (Hlit : forall ci lits acc, inv acc ->
            inv (foldl (add_literal vocab max_args ci) acc lits)).
  { intros ci lits. induction lits as [|[li lit] lits IH]; intros acc Hacc;
      simpl; [done|].
    apply IH. unfold inv in *. simpl. rewrite length_app. simpl. lia. }
  assert (Hcl : forall cls' acc, inv acc ->
            inv (foldl (add_clause vocab max_args) acc cls')).
  { intros cls'. induction cls' as [|[ci c] cls' IH]; intros acc Hacc;
      simpl; [done|]. by apply IH, Hlit. }
  by apply Hcl.
Qed.

(** The three outcomes of the builder, for [max_args >= 0]. *)
Lemma build_graph_outcome_cases
    (example : Example) (vocab : gmap (list N) Z) (max_args : Z) :
  0 <= max_args ->
  let m := node_map (build_nodes vocab max_args (clauses example)) in
  match build_graph_from_example example vocab max_args with
  | Raised e =>
      e = RuntimeError
      /\ Forall (fun c => literals c = []) (clauses example)
  | Returned None =>
      (exists c, c ∈ clauses example /\ literals c <> [])
      /\ (forall p, p ∈ resolvable_pairs example -> malformed m p)
  | Returned (Some g) =>
      exists p, p ∈ resolvable_pairs example /\ references_nodes m p
  end.
Proof.
  intros Hm m. unfold build_graph_from_example.
  destruct (node_features (build_nodes vocab max_args (clauses example)))
    as [|f fs] eqn:Hfeat.
  - simpl. split; [done|].
    rewrite build_nodes_features in Hfeat. apply map_eq_nil in Hfeat.
    induction (clauses example) as [|c cls IH]; [done|].
    simpl in Hfeat. apply app_eq_nil in Hfeat as [Hc Hcls].
    constructor; auto.
  - assert (Hlit : exists c, c ∈ clauses example /\ literals c <> []).
    { rewrite build_nodes_features in Hfeat.
      induction (clauses example) as [|c cls IH]; [done|].
      simpl in Hfeat. destruct (literals c) as [|l ls] eqn:Hc.
      - destruct (IH Hfeat) as (c' & Hc' & Hne).
        exists c'. split; [by apply list_elem_of_further | done].
      - exists c. split; [apply list_elem_of_here | by rewrite Hc]. }
    rewrite <- Hfeat, stack_node_features; [|done|by rewrite Hfeat].
    cbn [mbind result_bind]. fold m.
    rewrite build_edges_emitted. cbn [edge_src edge_dst labels].
    destruct (omap (emitted m (_extract_best_pair example))
                (resolvable_pairs example)) as [|e es] eqn:Hes.
    + simpl. split; [done|]. intros p Hp.
      eapply emitted_None_malformed, omap_nil_inv; done.
    + simpl. apply omap_cons_inv in Hes as (p & Hp & Hem).
      exists p. split; [done|]. by eapply emitted_Some_references.
Qed.

(** X5: for [max_args >= 0] the builder raises exactly when no clause has
    a literal (and then a [RuntimeError]), returns [None] exactly when
    there is a literal and every pair is malformed, and returns a graph
    exactly when some pair references existing nodes. *)
Theorem build_graph_outcome
    (example : Example) (vocab : gmap (list N) Z) (max_args : Z) :
  0 <= max_args ->
  let m := node_map (build_nodes vocab max_args (clauses example)) in
  let r := build_graph_from_example example vocab max_args in
  (forall e, r = Raised e -> e = RuntimeError)
  /\ (r = Raised RuntimeError
      <-> Forall (fun c => literals c = []) (clauses example))
  /\ (r = Returned None
      <-> (exists c, c ∈ clauses example /\ literals c <> [])
          /\ (forall p, p ∈ resolvable_pairs example -> malformed m p))
  /\ ((exists g, r = Returned (Some g))
      <-> exists p, p ∈ resolvable_pairs example /\ references_nodes m p).
Proof.
  intros Hm m r.
  pose proof (build_graph_outcome_cases example vocab max_args Hm) as Hcases.
  fold m r in Hcases.
  assert (Hexcl1 :
            Forall (fun c => literals c = []) (clauses example) ->
            (exists c, c ∈ clauses example /\ literals c <> []) -> False).
  { rewrite Forall_forall. intros Hall (c & Hc & Hne). by apply Hne, Hall. }
  assert (Hexcl2 :
            (forall p, p ∈ resolvable_pairs example -> malformed m p) ->
            (exists p, p ∈ resolvable_pairs example
                       /\ references_nodes m p) -> False).
  { intros Hall (p & Hp & Href).
    by apply (malformed_not_references m p (Hall p Hp)). }
  assert (Hexcl3 : Forall (fun c => literals c = []) (clauses example) ->
                   (exists p, p ∈ resolvable_pairs example
                              /\ references_nodes m p) -> False).
  { intros Hall (p & _ & (a & b & src & dst & _ & _ & Hsrc & _)).
    assert (Hempty : m = ∅).
    { apply build_nodes_no_feature. rewrite build_nodes_features.
      by rewrite concat_no_literal. }
    rewrite Hempty in Hsrc. destruct (clauseA_index p); simpl in Hsrc; [|done].
    by rewrite lookup_empty in Hsrc. }
  destruct r as [e|[g|]].
  - destruct Hcases as [-> Hall]. split; [by intros e [= <-]|].
    split; [done|]. split.
    + split; [done|]. intros [Hlit _]. by destruct (Hexcl1 Hall Hlit).
    + split; [by intros [g ?]|]. intros Hp. by destruct (Hexcl3 Hall Hp).
  - split; [done|]. split.
    + split; [done|]. intros Hall. by destruct (Hexcl3 Hall Hcases).
    + split; [|by split; eauto].
      split; [done|]. intros [_ Hall]. by destruct (Hexcl2 Hall Hcases).
  - destruct Hcases as [Hlit Hall]. split; [done|]. split.
    + split; [done|]. intros Hemp. by destruct (Hexcl1 Hemp Hlit).
    + split; [done|]. split; [by intros [g ?]|].
      intros Hp. by destruct (Hexcl2 Hall Hp).
Qed.

Lemma build_graph_x
    (example : Example) (vocab : gmap (list N) Z) (max_args : Z) (g : Data) :
  build_graph_from_example example vocab max_args = Returned (Some g) ->
  x g = map (fun lit => embed_literal lit vocab max_args)
          (concat (map literals (clauses example))).
Proof.
  unfold build_graph_from_example.
  destruct (stack _) as [e|xs] eqn:Hstack; [done|].
  apply stack_returned in Hstack as [-> _]. cbn [mbind result_bind].
  case_bool_decide; [done|]. intros [= <-]. simpl.
  apply build_nodes_features.
Qed.

(** X6: the node feature matrix of a returned graph has one row per
    literal, in the order of the clauses and of their literals. *)
Theorem build_graph_node_features
    (example : Example) (vocab : gmap (list N) Z) (max_args : Z) (g : Data) :
  build_graph_from_example example vocab max_args = Returned (Some g) ->
  x g = map (fun lit => embed_literal lit vocab max_args)
          (concat (map literals (clauses example)))
  /\ length (x g)
     = sum_list (map (fun c => length (literals c)) (clauses example)).
Proof.
  intros Hg. rewrite (build_graph_x _ _ _ _ Hg). split; [done|].
  rewrite length_map. clear Hg.
  induction (clauses example) as [|c cls IH]; [done|].
  simpl. by rewrite length_app, IH.
Qed.

(** A returned graph in terms of the triples emitted by the edge loop. *)
Lemma build_graph_returned
    (example : Example) (vocab : gmap (list N) Z) (max_args : Z) (g : Data) :
  build_graph_from_example example vocab max_args = Returned (Some g) ->
  let m := node_map (build_nodes vocab max_args (clauses example)) in
  let es := omap (emitted m (_extract_best_pair example))
              (resolvable_pairs example) in
  let columns := coalesce (es.*1 ++ map prod_swap es.*1) in
  es <> []
  /\ edge_index g = (columns.*1, columns.*2)
  /\ zip (edge_index g).1 (edge_index g).2 = columns
  /\ size1 (edge_index g) = length columns
  /\ y g = es.*2
            ++ Py.slice es.*2 None
                 (Some (Z.of_nat (length columns) - Z.of_nat (length es))).
Proof.
  unfold build_graph_from_example.
  destruct (stack _) as [e|xs]; [done|]. cbn [mbind result_bind].
  rewrite build_edges_emitted. cbn [edge_src edge_dst labels].
  case_bool_decide as Hlen; [done|]. intros [= <-]. cbn [edge_index y].
  set (es := omap _ _) in *. cbv zeta.
  assert (Hz : zip (es.*1.*1 ++ es.*1.*2) (es.*1.*2 ++ es.*1.*1)
               = es.*1 ++ map prod_swap es.*1).
  { rewrite zip_with_app by (by rewrite !length_fmap).
    fold (zip (es.*1.*1) (es.*1.*2)). fold (zip (es.*1.*2) (es.*1.*1)).
    by rewrite zip_fst_snd, zip_snd_fst. }
  rewrite Hz. cbn [fst snd]. unfold size1. cbn [fst].
  rewrite zip_fst_snd, !length_fmap.
  split; [|done]. intros Hnil. rewrite Hnil in Hlen. done.
Qed.

Lemma length_insert_edge (e : nat * nat) (l : list (nat * nat)) :
  (length l <= length (insert_edge e l) <= S (length l))%nat.
Proof.
  induction l as [|e' l IH]; simpl; [lia|].
  destruct (edge_compare e e'); simpl; lia.
Qed.

Lemma length_coalesce (l : list (nat * nat)) :
  (length (coalesce l) <= length l)%nat
  /\ (l <> [] -> 1 <= length (coalesce l))%nat.
Proof.
  unfold coalesce. induction l as [|e l [IH1 IH2]]; simpl; [done|].
  pose proof (length_insert_edge e (foldr insert_edge [] l)).
  split; [lia|]. intros _. destruct (foldr insert_edge [] l); simpl in *; lia.
Qed.

(** The length of a prefix slice, for any bound. *)
Lemma length_slice_prefix {A} (l : list A) (k : Z) :
  length (Py.slice l None (Some k)) = Py.slice_bound (length l) k.
Proof.
  unfold Py.slice. simpl. rewrite Nat.sub_0_r, drop_0, length_take.
  unfold Py.slice_bound. destruct (Z.ltb_spec k 0); lia.
Qed.

Lemma length_omap_emitted
    (m : gmap (Z * Z) nat) (best : option Pair) (pairs : list Pair) :
  length (omap (emitted m best) pairs) = valid_pair_count m pairs.
Proof.
  unfold valid_pair_count. induction pairs as [|p ps IH]; simpl; [done|].
  destruct (emitted m best p) as [e1|] eqn:E1,
           (emitted m None p) as [e2|] eqn:E2; simpl; auto.
  - apply emitted_Some_references in E1 as [Href _].
    apply emitted_None_malformed in E2.
    by destruct (malformed_not_references m p E2).
  - apply emitted_Some_references in E2 as [Href _].
    apply emitted_None_malformed in E1.
    by destruct (malformed_not_references m p E1).
Qed.

(** X11: a returned graph has at least one edge column and at most two per
    valid pair; it has one label per column when symmetrising did not
    shrink the list of edges, and one label per valid pair more than
    columns otherwise. *)
Theorem build_graph_label_count
    (example : Example) (vocab : gmap (list N) Z) (max_args : Z) (g : Data) :
  build_graph_from_example example vocab max_args = Returned (Some g) ->
  let m := node_map (build_nodes vocab max_args (clauses example)) in
  let n := valid_pair_count m (resolvable_pairs example) in
  let E := size1 (edge_index g) in
  (1 <= E <= 2 * n)%nat
  /\ length (snd (edge_index g)) = E
  /\ length (y g) = if (n <=? E)%nat then E else (n + E)%nat.
Proof.
  intros Hg. destruct (build_graph_returned _ _ _ _ Hg)
    as (Hne & Hei & Hzip & Hsize & Hy).
  cbv zeta. rewrite Hy, Hsize.
  set (es := omap _ _) in *.
  pose proof (length_omap_emitted
                (node_map (build_nodes vocab max_args (clauses example)))
                (_extract_best_pair example) (resolvable_pairs example))
    as Hn. fold es in Hn. rewrite <- Hn.
  destruct (length_coalesce (es.*1 ++ map prod_swap es.*1)) as [Hle Hge].
  rewrite length_app, length_map, !length_fmap in Hle.
  assert (Hge' : (1 <= length (coalesce (es.*1 ++ map prod_swap es.*1)))%nat).
  { apply Hge. destruct es; [done|]. done. }
  split; [lia|]. split.
  - rewrite Hei. cbn [snd]. by rewrite length_fmap.
  - rewrite length_app, length_slice_prefix, length_fmap.
    unfold Py.slice_bound.
    destruct (Nat.leb_spec (length es)
                (length (coalesce (es.*1 ++ map prod_swap es.*1))));
      destruct (Z.ltb_spec
                  (Z.of_nat (length (coalesce (es.*1 ++ map prod_swap es.*1)))
                   - Z.of_nat (length es)) 0); lia.
Qed.

(** X7: every edge column of a returned graph joins two rows of its node
    feature matrix. *)
Theorem build_graph_edges_in_range
    (example : Example) (vocab : gmap (list N) Z) (max_args : Z) (g : Data)
    (u v : nat) :
  build_graph_from_example example vocab max_args = Returned (Some g) ->
  (u, v) ∈ zip (edge_index g).1 (edge_index g).2 ->
  (u < length (x g))%nat /\ (v < length (x g))%nat.
Proof.
  intros Hg. rewrite (build_graph_x _ _ _ _ Hg).
  rewrite <- build_nodes_features, <- build_nodes_g_idx.
  destruct (build_graph_returned _ _ _ _ Hg) as (_ & _ & -> & _).
  set (m := node_map _). set (es := omap _ _).
  destruct (build_nodes_ok vocab max_args (clauses example)) as [Hlt _].
  assert (Hnode : forall i a n, node_lookup m i a = Some n ->
            (n < g_idx (build_nodes vocab max_args (clauses example)))%nat).
  { intros [i|] a n; simpl; [apply Hlt | done]. }
  set (n := g_idx (build_nodes vocab max_args (clauses example))) in *.
  assert (Hes : forall e, e ∈ es.*1 -> (e.1 < n)%nat /\ (e.2 < n)%nat).
  { intros e Hin. apply list_elem_of_fmap in Hin as ([e' l] & -> & Hin).
    apply list_elem_of_omap in Hin as (p & _ & Hem).
    apply emitted_Some_references in Hem
      as (_ & a & b & _ & _ & Hs & Hd & _).
    split; eapply Hnode; eauto. }
  rewrite elem_of_coalesce, elem_of_app.
  intros [Hin | Hin].
  - apply (Hes _ Hin).
  - apply list_elem_of_fmap in Hin as ([u' v'] & [= -> ->] & Hin).
    destruct (Hes _ Hin). by split.
Qed.

(** X10: the labels of a returned graph are 0 or 1, and all of them are 0
    when the example has no best pair. *)
Theorem build_graph_labels_binary
    (example : Example) (vocab : gmap (list N) Z) (max_args : Z) (g : Data) :
  build_graph_from_example example vocab max_args = Returned (Some g) ->
  Forall (fun l => l = 0 \/ l = 1) (y g)
  /\ (_extract_best_pair example = None -> Forall (fun l => l = 0) (y g)).
Proof.
  intros Hg. destruct (build_graph_returned _ _ _ _ Hg) as (_ & _ & _ & _ & ->).
  set (m := node_map _). set (es := omap _ _).
  assert (Hall : forall P : Z -> Prop,
            Forall P es.*2 ->
            Forall P (es.*2 ++ Py.slice es.*2 None
                                 (Some (Z.of_nat (length (coalesce
                                    (es.*1 ++ map prod_swap es.*1)))
                                        - Z.of_nat (length es))))).
  { intros P HP. apply Forall_app. split; [done|].
    rewrite Forall_forall in HP |- *. intros l Hl.
    by eapply HP, slice_elem. }
  assert (Hlab : forall l, l ∈ es.*2 ->
            exists p a b, l = if is_best (_extract_best_pair example)
                                   (clauseA_index p) a (clauseB_index p) b
                              then 1 else 0).
  { intros l Hin. apply list_elem_of_fmap in Hin as ([e' l'] & -> & Hin).
    apply list_elem_of_omap in Hin as (p & _ & Hem).
    apply emitted_Some_references in Hem
      as (_ & a & b & _ & _ & _ & _ & Hl).
    by exists p, a, b. }
  split.
  - apply Hall, Forall_forall. intros l Hin.
    destruct (Hlab l Hin) as (p & a & b & ->).
    destruct (is_best _ _ _ _ _); auto.
  - intros Hnone. apply Hall, Forall_forall. intros l Hin.
    destruct (Hlab l Hin) as (p & a & b & ->). by rewrite Hnone.
Qed.

End MoreBuilderProperties.

(** *** Sorted columns *)

Lemma edge_compare_Lt (e1 e2 : nat * nat) :
  edge_compare e1 e2 = Lt
  <-> (e1.1 < e2.1)%nat \/ (e1.1 = e2.1 /\ (e1.2 < e2.2)%nat).
Proof.
  unfold edge_compare.
  destruct (Nat.compare_spec e1.1 e2.1) as [Heq|Hlt|Hgt].
  - rewrite Nat.compare_lt_iff. intuition lia.
  - intuition lia.
  - split; [done|]. lia.
Qed.

Lemma edge_compare_Gt (e1 e2 : nat * nat) :
  edge_compare e1 e2 = Gt -> edge_lt e2 e1.
Proof.
  unfold edge_lt. rewrite edge_compare_Lt. unfold edge_compare.
  destruct (Nat.compare_spec e1.1 e2.1) as [Heq|Hlt|Hgt].
  - rewrite Nat.compare_gt_iff. lia.
  - done.
  - lia.
Qed.

#[global] Instance edge_lt_trans : Transitive edge_lt.
Proof.
  intros e1 e2 e3. unfold edge_lt. rewrite !edge_compare_Lt. lia.
Qed.

Lemma insert_edge_sorted (e : nat * nat) (l : list (nat * nat)) :
  Sorted edge_lt l -> Sorted edge_lt (insert_edge e l).
Proof.
  induction 1 as [|e1 l Hs IH Hhd]; simpl.
  - by repeat constructor.
  - destruct (edge_compare e e1) eqn:E.
    + by constructor.
    + constructor; [by constructor|]. by constructor.
    + constructor; [done|].
      apply edge_compare_Gt in E.
      destruct l as [|e2 l]; simpl; [by constructor|].
      inversion Hhd; subst.
      destruct (edge_compare e e2); by constructor.
Qed.

Lemma coalesce_sorted (l : list (nat * nat)) :
  StronglySorted edge_lt (coalesce l).
Proof.
  apply Sorted_StronglySorted; [apply _|].
  unfold coalesce. induction l as [|e l IH]; simpl; [constructor|].
  by apply insert_edge_sorted.
Qed.

Lemma strictly_sorted_NoDup (l : list (nat * nat)) :
  StronglySorted edge_lt l -> NoDup l.
Proof.
  induction 1 as [|e l Hs IH Hall]; constructor; [|done].
  intros Hin. rewrite Forall_forall in Hall. specialize (Hall e Hin).
  unfold edge_lt in Hall. rewrite edge_compare_Lt in Hall. lia.
Qed.

Section SortedColumns.
Context `{UnicodeData}.

(** X9: the edge columns of a returned graph are strictly increasing in
    the order of (source, destination); no column occurs twice. *)
Theorem build_graph_columns_sorted
    (example : Example) (vocab : gmap (list N) Z) (max_args : Z) (g : Data) :
  build_graph_from_example example vocab max_args = Returned (Some g) ->
  StronglySorted edge_lt (zip (edge_index g).1 (edge_index g).2)
  /\ NoDup (zip (edge_index g).1 (edge_index g).2).
Proof.
  intros Hg. destruct (build_graph_returned _ _ _ _ Hg) as (_ & _ & -> & _).
  split; [apply coalesce_sorted|].
  apply strictly_sorted_NoDup, coalesce_sorted.
Qed.

End SortedColumns.

Section EdgeSetSymmetry.
Context `{UnicodeData}.

(** X8: the edge columns of a returned graph are symmetric as a set: a
    column (u, v) is present exactly when the column (v, u) is. *)
Theorem build_graph_edge_set_symmetric
    (example : Example) (vocab : gmap (list N) Z) (max_args : Z) (g : Data)
    (u v : nat) :
  build_graph_from_example example vocab max_args = Returned (Some g) ->
  (u, v) ∈ zip (edge_index g).1 (edge_index g).2
  <-> (v, u) ∈ zip (edge_index g).1 (edge_index g).2.
Proof.
  intros Hg. split; by apply build_graph_columns_symmetric with example vocab
                             max_args.
Qed.

End EdgeSetSymmetry.

(** *** More on the dataset *)

Section CacheProperties.
Context `{UnicodeData}.

(** [get] changes nothing but the cache. *)
Lemma get_attributes (self : ClauseResolutionDataset) (idx : Z) :
  let self' := (get self idx).2 in
  examples self' = examples self
  /\ predicate_to_idx self' = predicate_to_idx self
  /\ max_args self' = max_args self
  /\ _cache_enabled self' = _cache_enabled self.
Proof.
  cbv zeta. unfold get. destruct (_cache_enabled self) eqn:Hen.
  - destruct (_cache self !! idx); [by rewrite ?Hen|].
    destruct (build self idx); cbn; by rewrite ?Hen.
  - by rewrite ?Hen.
Qed.

Lemma build_get (self : ClauseResolutionDataset) (idx idx' : Z) :
  build (get self idx).2 idx' = build self idx'.
Proof.
  destruct (get_attributes self idx) as (He & Hv & Hm & _).
  unfold build. by rewrite He, Hv, Hm.
Qed.

(** One call of [get] on a coherent cache. *)
Lemma get_cache_ok (self : ClauseResolutionDataset) (idx : Z) :
  cache_ok self ->
  (get self idx).1 = build self idx /\ cache_ok (get self idx).2.
Proof.
  intros Hok. unfold get.
  destruct (_cache_enabled self) eqn:Hen; [|done].
  destruct (_cache self !! idx) as [g|] eqn:Hc.
  - split; [by rewrite (Hok idx g Hc) | done].
  - destruct (build self idx) as [e|g] eqn:Hb; [done|].
    split; [done|]. intros idx' g'. cbn [snd].
    change (build (set_cache self (<[idx:=g]> (_cache self))) idx')
      with (build self idx').
    cbn [_cache set_cache]. rewrite lookup_insert. case_decide as Heq.
    + intros [= <-]. by rewrite <- Heq.
    + apply Hok.
Qed.

Lemma after_gets_cache_ok (self : ClauseResolutionDataset) (idxs : list Z) :
  cache_ok self ->
  cache_ok (after_gets self idxs)
  /\ forall idx, build (after_gets self idxs) idx = build self idx.
Proof.
  unfold after_gets. revert self.
  induction idxs as [|i idxs IH]; intros self Hok; simpl; [done|].
  destruct (get_cache_ok self i Hok) as [_ Hok'].
  destruct (IH _ Hok') as [Hok'' Hb]. split; [done|].
  intros idx. by rewrite Hb, build_get.
Qed.

Lemma get_after_gets
    (loaded : list Example) (predicate_list : option (list (list N)))
    (max_args : Z) (use_cache : bool) (idxs : list Z) (idx : Z) :
  let ds := init loaded predicate_list max_args use_cache in
  (get (after_gets ds idxs) idx).1
  = (ex ← getitem loaded idx;
     build_graph_from_example ex (predicate_to_idx ds) max_args).
Proof.
  intros ds.
  assert (Hok : cache_ok ds).
  { intros i g. unfold ds, init. cbn [_cache set_examples set_predicate_to_idx].
    by rewrite lookup_empty. }
  destruct (after_gets_cache_ok ds idxs Hok) as [Hok' Hb].
  destruct (get_cache_ok _ idx Hok') as [-> _]. by rewrite Hb.
Qed.

(** X12: the cache is a memoisation: after the construction and any
    sequence of calls of [get], [get(idx)] returns what the graph builder
    returns for the loaded example at [idx] with the vocabulary and the
    [max_args] of the dataset (or raises what the indexing or the builder
    raises). *)
Theorem get_memoizes
    (loaded : list Example) (predicate_list : option (list (list N)))
    (max_args : Z) (use_cache : bool) (idxs : list Z) (idx : Z) :
  let ds := init loaded predicate_list max_args use_cache in
  (get (after_gets ds idxs) idx).1
  = (ex ← getitem loaded idx;
     build_graph_from_example ex (predicate_to_idx ds) max_args).
Proof. apply get_after_gets. Qed.

(** X13: a second call of [get] with the same index returns the same result
    and leaves the dataset as the first call left it. *)
Theorem get_twice (self : ClauseResolutionDataset) (idx : Z) :
  get (get self idx).2 idx = ((get self idx).1, (get self idx).2).
Proof.
  unfold get at 2 3 4.
  destruct (_cache_enabled self) eqn:Hen; cbn [fst snd].
  - destruct (_cache self !! idx) as [g|] eqn:Hc; cbn [fst snd].
    + unfold get. by rewrite Hen, Hc.
    + destruct (build self idx) as [e|g] eqn:Hb; cbn [fst snd].
      * unfold get. by rewrite Hen, Hc, Hb.
      * unfold get. cbn [_cache_enabled _cache set_cache].
        by rewrite Hen, lookup_insert_eq.
  - unfold get. by rewrite Hen.
Qed.

End CacheProperties.

Lemma getitem_out_of_range {A} (l : list A) (i : Z) :
  Z.of_nat (length l) <= i \/ i < - Z.of_nat (length l) ->
  getitem l i = Raised IndexError.
Proof.
  intros Hout. unfold getitem.
  destruct (Z.ltb_spec i 0).
  - destruct (Z.leb_spec 0 (i + Z.of_nat (length l))); [lia | done].
  - destruct (Z.leb_spec 0 i); [|done].
    rewrite lookup_ge_None_2; [done | lia].
Qed.

Lemma getitem_in_range {A} (l : list A) (i : Z) :
  0 <= i < Z.of_nat (length l) ->
  exists a, l !! Z.to_nat i = Some a /\ getitem l i = Returned a.
Proof.
  intros Hin. unfold getitem.
  destruct (Z.ltb_spec i 0); [lia|].
  destruct (Z.leb_spec 0 i); [|lia].
  destruct (lookup_lt_is_Some_2 l (Z.to_nat i)) as [a Ha]; [lia|].
  exists a. by rewrite Ha.
Qed.

Lemma getitem_negative {A} (l : list A) (i : Z) :
  - Z.of_nat (length l) <= i < 0 ->
  getitem l i = getitem l (i + Z.of_nat (length l)).
Proof.
  intros Hin. unfold getitem.
  destruct (Z.ltb_spec i 0); [|lia].
  destruct (Z.ltb_spec (i + Z.of_nat (length l)) 0); [lia | done].
Qed.

Section IndexProperties.
Context `{UnicodeData}.

Lemma build_graph_raises_RuntimeError
    (example : Example) (vocab : gmap (list N) Z) (max_args : Z) (e : exn) :
  build_graph_from_example example vocab max_args = Raised e ->
  e = RuntimeError.
Proof.
  unfold build_graph_from_example.
  destruct (stack _) as [e'|xs] eqn:Hs.
  - intros [= <-]. by eapply stack_raised.
  - cbn [mbind result_bind]. by case_bool_decide.
Qed.

(** X14: indexing a constructed dataset, after any calls of [get]: an index
    at or past the number of loaded examples, or below its opposite,
    raises [IndexError]; a negative index within range gives the result of
    the index counted from the end; an index from 0 to the number of
    loaded examples never raises [IndexError]. *)
Theorem get_index
    (loaded : list Example) (predicate_list : option (list (list N)))
    (max_args : Z) (use_cache : bool) (idxs : list Z) (idx : Z) :
  let ds := after_gets (init loaded predicate_list max_args use_cache) idxs in
  let n := Z.of_nat (length loaded) in
  (n <= idx \/ idx < - n -> (get ds idx).1 = Raised IndexError)
  /\ (- n <= idx < 0 -> (get ds idx).1 = (get ds (idx + n)).1)
  /\ (0 <= idx < n -> (get ds idx).1 <> Raised IndexError).
Proof.
  cbv zeta. rewrite !get_after_gets. split; [|split].
  - intros Hout. by rewrite getitem_out_of_range.
  - intros Hin. by rewrite getitem_negative.
  - intros Hin. destruct (getitem_in_range loaded idx Hin) as (ex & _ & ->).
    cbn [mbind result_bind]. intros Hr.
    by apply build_graph_raises_RuntimeError in Hr.
Qed.

End IndexProperties.

(** *** More on the vocabulary *)

Lemma last_occurrence {A} `{EqDecision A} (l : list A) (a : A) :
  a ∈ l ->
  exists i : nat,
    l !! i = Some a /\ forall j : nat, (i < j)%nat -> l !! j <> Some a.
Proof.
  induction l as [|b l IH]; intros Hin; [by apply elem_of_nil in Hin|].
  destruct (decide (a ∈ l)) as [Hl|Hl].
  - destruct (IH Hl) as (i & Hi & Hlast). exists (S i). split; [done|].
    intros [|j] Hj; [lia|]. simpl. apply Hlast. lia.
  - apply elem_of_cons in Hin as [->|Hin]; [|done].
    exists 0%nat. split; [done|]. intros [|j] Hj; [lia|]. simpl.
    intros Hj'. apply Hl. by eapply list_elem_of_lookup_2.
Qed.

(** The ID of a name is one more than a position at which it is listed. *)
Lemma make_vocabulary_Some (l : list (list N)) (name : list N) (id : Z) :
  make_vocabulary l !! name = Some id ->
  1 <= id <= Z.of_nat (length l) /\ l !! Z.to_nat (id - 1) = Some name.
Proof.
  intros Hid. destruct (make_vocabulary_lookup l name) as [Hout Hin].
  destruct (decide (name ∈ l)) as [Hl|Hl].
  - destruct (last_occurrence l name Hl) as (i & Hi & Hlast).
    rewrite (Hin i Hi Hlast) in Hid. injection Hid as <-.
    replace (Z.to_nat (Z.of_nat i + 1 - 1)) with i by lia.
    split; [|done]. apply lookup_lt_Some in Hi. lia.
  - by rewrite (Hout Hl) in Hid.
Qed.

Lemma dom_foldl_vocabulary
    (l : list (list N)) (s : nat) (acc : gmap (list N) Z) :
  dom (foldl (fun m ip => <[ snd ip := Z.of_nat (fst ip) + 1 ]> m) acc
         (zip (seq s (length l)) l))
  = dom acc ∪ list_to_set l.
Proof.
  revert s acc. induction l as [|a l IH]; intros s acc; simpl.
  - by rewrite union_empty_r_L.
  - rewrite IH, dom_insert_L.
    by rewrite (union_comm_L {[a]} (dom acc)), <- union_assoc_L.
Qed.

Lemma size_make_vocabulary (l : list (list N)) :
  NoDup l -> size (make_vocabulary l) = length l.
Proof.
  intros Hnd. rewrite <- size_dom. unfold make_vocabulary, enumerate.
  rewrite dom_foldl_vocabulary, dom_empty_L, union_empty_l_L.
  by apply size_list_to_set.
Qed.

Lemma init_vocabulary_ids
    (loaded : list Example) (predicate_list : option (list (list N)))
    (max_args : Z) (use_cache : bool) :
  let vocab :=
    predicate_to_idx (init loaded predicate_list max_args use_cache) in
  (forall name id, vocab !! name = Some id -> 1 <= id)
  /\ (forall name1 name2 id,
        vocab !! name1 = Some id -> vocab !! name2 = Some id ->
        name1 = name2)
  /\ ((forall l, predicate_list = Some l -> NoDup l) ->
      forall name id,
        vocab !! name = Some id -> id <= Z.of_nat (size vocab)).
Proof.
  cbv zeta. unfold init.
  cbn [predicate_to_idx set_examples set_predicate_to_idx].
  set (pred_list := match predicate_list with
                    | Some (p :: l) => p :: l
                    | _ => sorted (collect_predicates loaded)
                    end).
  split; [|split].
  - intros name id Hid. apply make_vocabulary_Some in Hid. lia.
  - intros name1 name2 id H1 H2.
    apply make_vocabulary_Some in H1 as [_ H1].
    apply make_vocabulary_Some in H2 as [_ H2]. congruence.
  - intros Hnd name id Hid.
    assert (Hnd' : NoDup pred_list).
    { unfold pred_list. destruct predicate_list as [[|p l]|].
      - apply sorted_spec.
      - by apply Hnd.
      - apply sorted_spec. }
    rewrite (size_make_vocabulary _ Hnd').
    apply make_vocabulary_Some in Hid. lia.
Qed.

(** X15: the IDs of a constructed vocabulary start at 1 and no two names
    share an ID; when the names of an explicit list are distinct (an
    auto-collected list always is), every ID is at most the size of the
    vocabulary. *)
Theorem vocabulary_ids_distinct
    (loaded : list Example) (predicate_list : option (list (list N)))
    (max_args : Z) (use_cache : bool) :
  let vocab :=
    predicate_to_idx (init loaded predicate_list max_args use_cache) in
  (forall name id, vocab !! name = Some id -> 1 <= id)
  /\ (forall name1 name2 id,
        vocab !! name1 = Some id -> vocab !! name2 = Some id ->
        name1 = name2)
  /\ ((forall l, predicate_list = Some l -> NoDup l) ->
      forall name id,
        vocab !! name = Some id -> id <= Z.of_nat (size vocab)).
Proof. apply init_vocabulary_ids. Qed.

Section VocabularyCoverage.
Context `{UnicodeData}.


End VocabularyCoverage.

(** *** The inputs of the model *)



Section ModelInputs.
Context `{UnicodeData}.


End ModelInputs.

(** *** More on the evaluation *)

Section MoreEvaluateProperties.
Variable predict : list (list Z) -> list nat * list nat -> list Z.

Lemma evaluate_loop_app (l1 l2 : list Data) (acc : counters) :
  evaluate_loop predict acc (l1 ++ l2)
  = (acc' ← evaluate_loop predict acc l1; evaluate_loop predict acc' l2).
Proof.
  revert acc. induction l1 as [|b l1 IH]; intros acc; simpl; [done|].
  destruct (evaluate_step predict acc b) as [e|acc']; simpl; [done|].
  apply IH.
Qed.

(** X18: a batch without labels, anywhere in the loader, does not change
    what [evaluate] returns or raises. *)
Theorem evaluate_skips_unlabelled (l1 l2 : list Data) (batch : Data) :
  y batch = [] ->
  evaluate predict (l1 ++ batch :: l2) = evaluate predict (l1 ++ l2).
Proof.
  intros Hy. unfold evaluate. rewrite !evaluate_loop_app.
  destruct (evaluate_loop predict _ l1) as [e|acc]; [done|].
  cbn [mbind result_bind evaluate_loop]. unfold evaluate_step at 1.
  by rewrite Hy.
Qed.

Lemma evaluate_loop_counts (loader : list Data) (acc : counters) :
  Forall (aligned predict) loader ->
  evaluate_loop predict acc loader
  = Returned {| correct := correct acc + sum_over (agreements predict) loader;
                total := total acc
                         + sum_over (fun b => length (y b)) loader |}.
Proof.
  intros Hall. revert acc.
  induction Hall as [|b loader Hb Hall IH]; intros acc; simpl.
  - rewrite !Nat.add_0_r. by destruct acc.
  - unfold evaluate_step. case_bool_decide as Hy.
    + cbn [mbind result_bind]. rewrite IH. unfold agreements.
      apply length_zero_iff_nil in Hy. rewrite Hy.
      rewrite zip_with_nil_r. simpl. done.
    + unfold count_equal. rewrite bool_decide_eq_true_2.
      * cbn [mbind result_bind]. rewrite IH. cbn [correct total].
        unfold agreements. f_equal. f_equal; lia.
      * apply Hb. by destruct (y b).
Qed.

(** X19: over a loader whose batches are aligned, [evaluate] returns the
    number of positions at which prediction and label agree divided by
    the number of labels (0 when there is no label). *)
Theorem evaluate_accuracy (loader : list Data) :
  Forall (aligned predict) loader ->
  let agree := sum_over (agreements predict) loader in
  let labelled := sum_over (fun b => length (y b)) loader in
  evaluate predict loader
  = Returned (if bool_decide (labelled = 0%nat) then 0%Q
              else (Z.of_nat agree # Pos.of_nat labelled)%Q).
Proof.
  intros Hall. cbv zeta. unfold evaluate.
  rewrite (evaluate_loop_counts loader _ Hall).
  cbn [mbind result_bind correct total Nat.add]. done.
Qed.

Lemma agreements_exact (batch : Data) :
  predict (x batch) (edge_index batch) = y batch ->
  agreements predict batch = length (y batch).
Proof.
  intros Heq. unfold agreements. rewrite Heq.
  generalize (y batch). intros ls.
  induction ls as [|l ls IH]; [done|].
  cbn [zip zip_with List.filter fst snd].
  rewrite bool_decide_eq_true_2 by done. simpl. by f_equal.
Qed.

(** X20: when the predictions are the labels in every batch and there is at
    least one label, [evaluate] returns 1. *)
Theorem evaluate_exact_predictions (loader : list Data) :
  Forall (fun b => predict (x b) (edge_index b) = y b) loader ->
  Exists (fun b => y b <> []) loader ->
  exists q, evaluate predict loader = Returned q /\ (q == 1)%Q.
Proof.
  intros Hall Hex.
  assert (Hal : Forall (aligned predict) loader).
  { eapply Forall_impl; [exact Hall|]. intros b Hb _. by rewrite Hb. }
  unfold evaluate. rewrite (evaluate_loop_counts loader _ Hal).
  cbn [mbind result_bind correct total Nat.add]. eexists. split; [done|].
  assert (Hsum : sum_over (agreements predict) loader
                 = sum_over (fun b => length (y b)) loader).
  { clear Hex Hal. induction Hall as [|b loader Hb _ IH]; simpl; [done|].
    by rewrite IH, agreements_exact. }
  assert (Hpos : sum_over (fun b => length (y b)) loader <> 0%nat).
  { clear Hall Hal Hsum. induction Hex as [b loader Hb|b loader _ IH]; simpl.
    - destruct (y b); simpl; [done | lia].
    - lia. }
  rewrite Hsum. simpl. rewrite bool_decide_eq_false_2 by done.
  unfold Qeq. simpl. rewrite pos_of_nat_Z by done. lia.
Qed.

End MoreEvaluateProperties.

(** *** Training loop *)

Section TrainingProperties.
Context {W F : Type}.
Variable fzero : F.
Variable fadd : F -> F -> F.
Variable fdiv : F -> nat -> F.
Variable step : W -> Data -> result (W * F).

Lemma train_loop_app (l1 l2 : list Data) (w : W) (t : F) :
  train_loop W F fadd step w t (l1 ++ l2)
  = (r ← train_loop W F fadd step w t l1;
     train_loop W F fadd step r.1 r.2 l2).
Proof.
  revert w t. induction l1 as [|b l1 IH]; intros w t; simpl; [done|].
  case_bool_decide; [apply IH|].
  destruct (step w b) as [e|r]; simpl; [done|]. apply IH.
Qed.

(** X21: a batch without labels causes no optimisation step and adds
    nothing to the total loss, but it counts in the number of batches
    the total is divided by. *)
Theorem train_one_epoch_unlabelled
    (l1 l2 : list Data) (batch : Data) (w : W) :
  y batch = [] ->
  train_loop W F fadd step w fzero (l1 ++ batch :: l2)
  = train_loop W F fadd step w fzero (l1 ++ l2)
  /\ train_one_epoch W F fzero fadd fdiv step w (l1 ++ batch :: l2)
     = (r ← train_loop W F fadd step w fzero (l1 ++ l2);
        Returned (r.1, fdiv r.2 (S (length (l1 ++ l2))))).
Proof.
  intros Hy.
  assert (Hloop : train_loop W F fadd step w fzero (l1 ++ batch :: l2)
                  = train_loop W F fadd step w fzero (l1 ++ l2)).
  { rewrite !train_loop_app.
    destruct (train_loop W F fadd step w fzero l1) as [e|r]; [done|].
    cbn [mbind result_bind train_loop]. by rewrite Hy. }
  split; [done|]. unfold train_one_epoch. rewrite Hloop.
  destruct (train_loop W F fadd step w fzero (l1 ++ l2)) as [e|r]; [done|].
  cbn [mbind result_bind]. do 3 f_equal.
  rewrite !length_app. simpl. lia.
Qed.

(** X22: an epoch over batches that all lack labels leaves the weights as
    they were and returns the zero total divided by the number of
    batches (by 1 for an empty loader). *)
Theorem train_one_epoch_all_unlabelled (loader : list Data) (w : W) :
  Forall (fun b => y b = []) loader ->
  train_one_epoch W F fzero fadd fdiv step w loader
  = Returned (w, fdiv fzero (Nat.max 1 (length loader))).
Proof.
  intros Hall. unfold train_one_epoch.
  assert (Hloop : train_loop W F fadd step w fzero loader
                  = Returned (w, fzero)).
  { induction Hall as [|b loader Hb _ IH]; simpl; [done|]. by rewrite Hb. }
  by rewrite Hloop.
Qed.

End TrainingProperties.

(** *** Splitting the dataset *)

(** A prefix slice and the suffix slice at the same bound make up the
    list, whatever the bound. *)
Lemma slice_split {A} (l : list A) (k : Z) :
  Py.slice l None (Some k) ++ Py.slice l (Some k) None = l.
Proof.
  unfold Py.slice. simpl.
  set (b := Py.slice_bound (length l) k).
  assert (Hb : (b <= length l)%nat).
  { unfold b, Py.slice_bound. destruct (Z.ltb_spec k 0); lia. }
  rewrite Nat.sub_0_r, drop_0.
  rewrite (take_ge (drop b l)) by (rewrite length_drop; lia).
  apply take_drop.
Qed.

(** X23: whatever the shuffle and the cut, the two subsets returned by
    [split_dataset] together hold every index of the dataset exactly
    once. *)
Theorem split_dataset_partition
    (shuffle : list nat -> list nat) (cut : nat -> Z) (n : nat) :
  (forall l, shuffle l ≡ₚ l) ->
  let '(train, test) := split_dataset shuffle cut n in
  train ++ test ≡ₚ seq 0 n
  /\ NoDup (train ++ test)
  /\ forall i, i ∈ train ++ test <-> (i < n)%nat.
Proof.
  intros Hperm. unfold split_dataset. rewrite slice_split.
  split; [apply Hperm|]. split.
  - rewrite Hperm. apply NoDup_seq.
  - intros i. rewrite Hperm, elem_of_seq. lia.
Qed.

(** *** Concrete runs of the further properties *)

Lemma graph_chain_built :
  build_graph_from_example (H := latin1) example_chain ∅ 3
  = Returned (Some graph_chain).
Proof. vm_compute. reflexivity. Qed.


Lemma parse_literal_surrounded_witness :
  parse_literal (py "  " ++ py "~P(x)" ++ py " ") = parse_literal (py "~P(x)").
Proof.
  apply (parse_literal_surrounded (py "  ") (py "~P(x)") (py " "));
    repeat constructor.
Defined.

Lemma parse_literal_text_witness :
  parse_literal (literal_text true (py "P") [py "X"; py "f(a)"])
  = (-1, py "P", [py "X"; py "f(a)"]).
Proof.
  apply (parse_literal_text true (py "P") [py "X"; py "f(a)"]).
  - apply (bool_decide_unpack _). vm_compute. exact I.
  - intros c r [= <- <-]. repeat split; done.
  - repeat constructor; try reflexivity;
      apply (bool_decide_unpack _); vm_compute; exact I.
  - done.
Defined.

Lemma match_predicate_parse_literal_witness :
  (parse_literal (py " ~ Foo_1(x)")).1.2 = py "Foo_1".
Proof.
  apply (match_predicate_parse_literal (py " ~ Foo_1(x)") (py "Foo_1")).
  reflexivity.
Defined.

Lemma build_graph_outcome_witness :
  build_graph_from_example (H := latin1) example_no_literal ∅ 3
  = Raised RuntimeError.
Proof.
  destruct (build_graph_outcome (H := latin1) example_no_literal ∅ 3
              ltac:(lia)) as (_ & Hraise & _).
  apply Hraise. repeat constructor.
Defined.

Lemma build_graph_node_features_witness :
  length (x graph_chain) = 4%nat.
Proof.
  by destruct (build_graph_node_features (H := latin1) example_chain ∅ 3
                 graph_chain graph_chain_built) as [_ ->].
Defined.

Lemma build_graph_edges_in_range_witness :
  (2 < length (x graph_chain))%nat /\ (3 < length (x graph_chain))%nat.
Proof.
  apply (build_graph_edges_in_range (H := latin1) example_chain ∅ 3
           graph_chain 2%nat 3%nat graph_chain_built).
  apply (bool_decide_unpack _). vm_compute. exact I.
Defined.

Lemma build_graph_edge_set_symmetric_witness :
  (3%nat, 2%nat) ∈ zip (edge_index graph_chain).1 (edge_index graph_chain).2.
Proof.
  apply (build_graph_edge_set_symmetric (H := latin1) example_chain ∅ 3
           graph_chain 2%nat 3%nat graph_chain_built).
  apply (bool_decide_unpack _). vm_compute. exact I.
Defined.

Lemma build_graph_columns_sorted_witness :
  NoDup (zip (edge_index graph_chain).1 (edge_index graph_chain).2).
Proof.
  apply (build_graph_columns_sorted (H := latin1) example_chain ∅ 3
           graph_chain graph_chain_built).
Defined.

Lemma build_graph_labels_binary_witness :
  Forall (fun l => l = 0 \/ l = 1) (y graph_chain).
Proof.
  apply (build_graph_labels_binary (H := latin1) example_chain ∅ 3
           graph_chain graph_chain_built).
Defined.

Lemma build_graph_label_count_witness :
  length (y graph_chain) = 4%nat.
Proof.
  destruct (build_graph_label_count (H := latin1) example_chain ∅ 3
              graph_chain graph_chain_built) as (_ & _ & Hy).
  exact Hy.
Defined.

Lemma get_index_witness :
  (get (H := latin1)
     (after_gets (H := latin1) (init [example_chain] None 3 true) [0]) 1).1
  = Raised IndexError.
Proof.
  destruct (get_index (H := latin1) [example_chain] None 3 true [0] 1)
    as (Hout & _ & _).
  apply Hout. simpl. lia.
Defined.

Lemma vocabulary_ids_distinct_witness :
  2 <= Z.of_nat
         (size (predicate_to_idx (init [] (Some [py "Q"; py "P"]) 3 true))).
Proof.
  destruct (vocabulary_ids_distinct [] (Some [py "Q"; py "P"]) 3 true)
    as (_ & _ & Hle).
  apply (Hle ltac:(intros l [= <-]; apply (bool_decide_unpack _);
                   vm_compute; exact I) (py "P") 2).
  vm_compute. reflexivity.
Defined.



Lemma evaluate_skips_unlabelled_witness :
  evaluate predict_zero ([batch_mixed] ++ batch_unlabelled :: [batch_zeros])
  = evaluate predict_zero ([batch_mixed] ++ [batch_zeros]).
Proof.
  apply (evaluate_skips_unlabelled predict_zero
           [batch_mixed] [batch_zeros] batch_unlabelled).
  reflexivity.
Defined.

Lemma evaluate_accuracy_witness :
  evaluate predict_zero [batch_mixed; batch_unlabelled; batch_zeros]
  = Returned (3 # 4)%Q.
Proof.
  apply (evaluate_accuracy predict_zero
           [batch_mixed; batch_unlabelled; batch_zeros]).
  repeat constructor; done.
Defined.

Lemma evaluate_exact_predictions_witness :
  exists q, evaluate predict_zero [batch_unlabelled; batch_zeros] = Returned q
            /\ (q == 1)%Q.
Proof.
  apply (evaluate_exact_predictions predict_zero
           [batch_unlabelled; batch_zeros]).
  - repeat constructor.
  - apply Exists_cons_tl, Exists_cons_hd. done.
Defined.

Lemma train_one_epoch_unlabelled_witness :
  train_loop nat Z Z.add step_count 0%nat 0
    ([batch_mixed] ++ batch_unlabelled :: [batch_zeros])
  = train_loop nat Z Z.add step_count 0%nat 0 ([batch_mixed] ++ [batch_zeros])
  /\ train_one_epoch nat Z 0 Z.add (fun t n => t / Z.of_nat n) step_count
       0%nat ([batch_mixed] ++ batch_unlabelled :: [batch_zeros])
     = Returned (2%nat, 4 / 3).
Proof.
  destruct (train_one_epoch_unlabelled 0 Z.add (fun t n => t / Z.of_nat n)
              step_count [batch_mixed] [batch_zeros] batch_unlabelled
              0%nat eq_refl) as [Hloop Hepoch].
  split; [exact Hloop|]. rewrite Hepoch. reflexivity.
Defined.

Lemma train_one_epoch_all_unlabelled_witness :
  train_one_epoch nat Z 0 Z.add (fun t n => t / Z.of_nat n) step_count
    7%nat [batch_unlabelled; batch_unlabelled]
  = Returned (7%nat, 0 / 2).
Proof.
  apply (train_one_epoch_all_unlabelled 0 Z.add (fun t n => t / Z.of_nat n)
           step_count [batch_unlabelled; batch_unlabelled] 7%nat).
  repeat constructor.
Defined.

Lemma split_dataset_partition_witness :
  (split_dataset reverse cut_four_fifths 5).1
    ++ (split_dataset reverse cut_four_fifths 5).2
  ≡ₚ seq 0 5.
Proof.
  pose proof (split_dataset_partition reverse cut_four_fifths 5
                (fun l => reverse_Permutation l)) as Hsplit.
  destruct (split_dataset reverse cut_four_fifths 5) as [train test].
  by destruct Hsplit as [Hperm _].
Defined.
